(** * RiverMapper MPI driver: work partitioning, caching and merging

    Shallow embedding of
    [src/Utility/Grid_Scripts/Compound_flooding/RiverMapper/RiverMapper/river_map_mpi_driver.py]
    and the properties of its partition function [my_mpi_idx], of the
    grouping cache, of the DEM pre-caching pass, of the per-group
    processing loop and of [merge_outputs]. *)

From Stdlib Require Import ZArith Ascii String DecimalString DecimalZ.
From stdpp Require Import base numbers list list_numbers strings gmap fin_maps.

Local Open Scope Z_scope.

(** ** Python exceptions and fallible computations *)

Inductive exn :=
  | IndexError
  | ValueError
  | TypeError
  | FileNotFoundError
  | UnpicklingError
  | EOFError.

Inductive result (A : Type) :=
  | Ok (a : A)
  | Raise (e : exn).
Arguments Ok {A} a.
Arguments Raise {A} e.

#[global] Instance result_ret : MRet result := λ A a, Ok a.
#[global] Instance result_bind : MBind result := λ A B f r,
  match r with
  | Ok a => f a
  | Raise e => Raise e
  end.

(** [[f(x) for x in xs]] where [f] may raise: the first exception wins. *)
Fixpoint result_map {A B} (f : A → result B) (xs : list A) : result (list B) :=
  match xs with
  | [] => Ok []
  | x :: xs' => y ← f x; ys ← result_map f xs'; Ok (y :: ys)
  end.

(** Python's index normalisation for a sequence of length [len]:
    [-len <= i < 0] counts from the end, anything outside
    [[-len, len)] is an [IndexError]. *)
Definition normalize_index (len : nat) (i : Z) : result nat :=
  if decide (0 ≤ i < Z.of_nat len) then Ok (Z.to_nat i)
  else if decide (- Z.of_nat len ≤ i < 0) then Ok (Z.to_nat (Z.of_nat len + i))
  else Raise IndexError.

(** [l[i]] on a Python list. *)
Definition list_getitem {A} (l : list A) (i : Z) : result A :=
  j ← normalize_index (length l) i;
  match l !! j with
  | Some x => Ok x
  | None => Raise IndexError
  end.

(** ** The part of NumPy that [my_mpi_idx] uses *)

Module Np.

(** Only the element kind matters here: NumPy accepts an array as an
    index only when its dtype is integer (or boolean). *)
Inductive dtype := int64 | float64.

(** A one-dimensional array of numbers.  The only [float64] arrays
    that arise below are empty, so [data] is kept as integers. *)
Record ndarray := mk_ndarray { dtype_of : dtype; data : list Z }.

(** [np.asarray(range(N))]: the dtype is discovered from the elements;
    a sequence without elements gets NumPy's default dtype, float64. *)
Definition asarray_range (N : Z) : ndarray :=
  {| dtype_of := if decide (0 < N) then int64 else float64;
     data := seqZ 0 N |}.

(** [np.array(section_sizes, dtype=intp).cumsum()] *)
Fixpoint cumsum_from (acc : Z) (l : list Z) : list Z :=
  match l with
  | [] => []
  | x :: l' => (acc + x) :: cumsum_from (acc + x) l'
  end.
Definition cumsum (l : list Z) : list Z := cumsum_from 0 l.

(** [[0] + extras * [Neach_section+1] + (Nsections-extras) * [Neach_section]]
    with [Neach_section, extras = divmod(Ntotal, Nsections)]. *)
Definition section_sizes (Ntotal Nsections : Z) : list Z :=
  let Neach_section := Ntotal `div` Nsections in
  let extras := Ntotal `mod` Nsections in
  [0] ++ replicate (Z.to_nat extras) (Neach_section + 1)
      ++ replicate (Z.to_nat (Nsections - extras)) Neach_section.

(** [a[st:end]] for [0 <= st] and [0 <= end] (the division points are
    never negative); the slice keeps the dtype. *)
Definition slice (a : ndarray) (st en : Z) : ndarray :=
  {| dtype_of := dtype_of a;
     data := take (Z.to_nat (en - st)) (drop (Z.to_nat st) (data a)) |}.

(** [np.array_split(range(N), Nsections)] *)
Definition array_split_range (N Nsections : Z) : result (list ndarray) :=
  let Ntotal := Z.max 0 N in
  if decide (Nsections ≤ 0) then Raise ValueError
  else
    let div_points := cumsum (section_sizes Ntotal Nsections) in
    let sary := asarray_range N in
    Ok ((λ i : nat, slice sary (div_points !!! i) (div_points !!! S i))
          <$> seq 0 (Z.to_nat Nsections)).

(** The largest extent an array axis can have ([numpy.intp] on a 64-bit
    platform). *)
Definition intp_max : Z := 9223372036854775807.

(** [np.zeros((N,), dtype=bool)]: a negative extent is refused, and so
    is one beyond [intp_max] ("Maximum allowed dimension exceeded"). *)
Definition zeros_bool (N : Z) : result (list bool) :=
  if decide (N < 0 ∨ intp_max < N) then Raise ValueError
  else Ok (replicate (Z.to_nat N) false).

(** [a[idx] = True] for an index array [idx]: a float index array is
    refused whatever its length, every index is bounds-checked, then
    the positions are written. *)
Definition setitem_true (a : list bool) (idx : ndarray) : result (list bool) :=
  match dtype_of idx with
  | float64 => Raise IndexError
  | int64 =>
      js ← result_map (normalize_index (length a)) (data idx);
      Ok (foldl (λ acc j, <[j:=true]> acc) a js)
  end.

(** [a[mask]] for a boolean mask over the first axis: the mask must be
    as long as the axis; the rows at the [True] positions are kept in
    order. *)
Fixpoint compress {A} (mask : list bool) (a : list A) : list A :=
  match mask, a with
  | b :: mask', x :: a' => if b then x :: compress mask' a' else compress mask' a'
  | _, _ => []
  end.

Definition getitem_mask {A} (a : list A) (mask : list bool) : result (list A) :=
  if decide (length mask = length a) then Ok (compress mask a)
  else Raise IndexError.

(** [a[(ids, mask)]] on a one-dimensional array: a tuple supplies one
    index per axis, and an integer array and a one-dimensional boolean
    array take one axis each, so the pair needs two axes. *)
Definition getitem_pair_1d {A} (a : list A) (idx : ndarray * list bool)
  : result (list A) := Raise IndexError.

End Np.

(** ** WorkPartitioner: [my_mpi_idx] (lines 26-36) *)

Definition my_mpi_idx (N size rank : Z) : result (Np.ndarray * list bool) :=
  i_my_groups ← Np.zeros_bool N;
  groups ← Np.array_split_range N size;
  my_group_ids ← list_getitem groups rank;
  i_my_groups ← Np.setitem_true i_my_groups my_group_ids;
  Ok (my_group_ids, i_my_groups).

(** The closed form of the near-equal split: where rank's share starts
    and how long it is. *)
Definition share_start (N size rank : Z) : Z :=
  rank * (N `div` size) + Z.min rank (N `mod` size).
Definition share_len (N size rank : Z) : Z :=
  N `div` size + (if decide (rank < N `mod` size) then 1 else 0).

(** The boolean vector with [True] exactly on rank's share. *)
Definition share_mask (N size rank : Z) : list bool :=
  foldl (λ acc j, <[j:=true]> acc) (replicate (Z.to_nat N) false)
        (Z.to_nat <$> seqZ (share_start N size rank) (share_len N size rank)).

Definition sumZ (l : list Z) : Z := foldr Z.add 0 l.

(** *** The store view of [my_mpi_idx]

    [np.zeros] allocates a new array on every call and
    [i_my_groups[my_group_ids] = True] writes into it in place.  The store
    holds the boolean arrays allocated so far; an array is named by its
    position in the store. *)

Abbreviation heap := (list (list bool)).
Abbreviation loc := nat.

Definition zeros_alloc (N : Z) (h : heap) : result (loc * heap) :=
  a ← Np.zeros_bool N; Ok (length h, h ++ [a]).

Definition setitem_true_at (l : loc) (idx : Np.ndarray) (h : heap) : result heap :=
  a ← Np.setitem_true (default [] (h !! l)) idx; Ok (<[l:=a]> h).

Definition my_mpi_idx_heap (N size rank : Z) (h : heap)
  : result ((Np.ndarray * loc) * heap) :=
  '(i_my_groups, h) ← zeros_alloc N h;
  groups ← Np.array_split_range N size;
  my_group_ids ← list_getitem groups rank;
  h ← setitem_true_at i_my_groups my_group_ids h;
  Ok ((my_group_ids, i_my_groups), h).

(** Two calls in a row with the same arguments; both results are read
    once the second call has returned. *)
Definition call_twice (N size rank : Z) (h : heap)
  : result ((Np.ndarray * list bool) * (Np.ndarray * list bool)) :=
  '((ids1, l1), h) ← my_mpi_idx_heap N size rank h;
  '((ids2, l2), h) ← my_mpi_idx_heap N size rank h;
  Ok ((ids1, default [] (h !! l1)), (ids2, default [] (h !! l2))).

(** *** What the specification asks of the partition *)

(** Coverage: every rank gets a share, shares of different ranks have no
    index in common, and together they are [0 .. N-1], each index once. *)
Definition partition_coverage (N size : Z) : Prop :=
  ∃ shares : list (list Z),
    length shares = Z.to_nat size ∧
    (∀ r : nat, (r < Z.to_nat size)%nat →
       ∃ ids mask, my_mpi_idx N size (Z.of_nat r) = Ok (ids, mask) ∧
                   shares !! r = Some (Np.data ids)) ∧
    (∀ (r1 r2 : nat) s1 s2 j,
       r1 ≠ r2 → shares !! r1 = Some s1 → shares !! r2 = Some s2 →
       j ∈ s1 → j ∉ s2) ∧
    (∀ j, (∃ s, s ∈ shares ∧ j ∈ s) ↔ 0 ≤ j < N) ∧
    concat shares ≡ₚ seqZ 0 N.

(** Balance: every share is a run of consecutive indices inside
    [0 .. N-1], the first [N mod size] ranks hold one index more than
    the others, and no two shares differ in length by more than one. *)
Definition partition_balanced (N size : Z) : Prop :=
  (∀ rank, 0 ≤ rank < size →
     ∃ ids mask st,
       my_mpi_idx N size rank = Ok (ids, mask) ∧
       0 ≤ st ∧ st + Z.of_nat (length (Np.data ids)) ≤ N ∧
       Np.data ids = seqZ st (Z.of_nat (length (Np.data ids))) ∧
       Z.of_nat (length (Np.data ids))
       = N `div` size + (if decide (rank < N `mod` size) then 1 else 0)) ∧
  (∀ r1 r2 ids1 mask1 ids2 mask2,
     0 ≤ r1 < size → 0 ≤ r2 < size →
     my_mpi_idx N size r1 = Ok (ids1, mask1) →
     my_mpi_idx N size r2 = Ok (ids2, mask2) →
     Z.abs (Z.of_nat (length (Np.data ids1)) - Z.of_nat (length (Np.data ids2))) ≤ 1).

(** Consistency of the two returned values. *)
Definition mask_consistent (N size rank : Z) : Prop :=
  ∃ ids mask,
    my_mpi_idx N size rank = Ok (ids, mask) ∧
    length mask = Z.to_nat N ∧
    ∀ j : Z, j ∈ Np.data ids ↔ 0 ≤ j ∧ mask !! Z.to_nat j = Some true.

(** ** ThalwegTileGrouper: the grouping cache (lines 121-149) *)

(** Python objects as far as the cache needs them. *)
Unset Elimination Schemes.
Inductive pyobj :=
  | PyNone
  | PyInt (n : Z)
  | PyStr (s : string)
  | PyList (xs : list pyobj).
Set Elimination Schemes.

(** The [pickle] library: what [dump] writes for an object and what
    [load] makes of the content of a file. *)
Record pickle_lib := {
  bytes : Type;
  pickle_dump : pyobj → bytes;
  pickle_load : bytes → result pyobj;
}.

(** The property of [pickle] the cache relies on. *)
Definition pickle_roundtrip (P : pickle_lib) : Prop :=
  ∀ o, pickle_load P (pickle_dump P o) = Ok o.

(** A file either holds the pickle stream of an object or was cut short,
    on which [pickle.load] raises [EOFError]. *)
Inductive stream :=
  | Pickled (o : pyobj)
  | Truncated.

Definition stream_pickle : pickle_lib := {|
  bytes := stream;
  pickle_dump := Pickled;
  pickle_load := λ b, match b with
                      | Pickled o => Ok o
                      | Truncated => Raise EOFError
                      end;
|}.

(** [a, b, c = o]: [o] must be iterable and yield exactly three items. *)
Definition unpack3 (o : pyobj) : result (pyobj * pyobj * pyobj) :=
  match o with
  | PyList [a; b; c] => Ok (a, b, c)
  | PyList _ => Raise ValueError
  | PyStr (String a (String b (String c EmptyString))) =>
      Ok (PyStr (String a EmptyString), PyStr (String b EmptyString),
          PyStr (String c EmptyString))
  | PyStr _ => Raise ValueError
  | PyNone | PyInt _ => Raise TypeError
  end.

Fixpoint has_slash (p : string) : bool :=
  match p with
  | EmptyString => false
  | String c p' => if decide (c = "/"%char) then true else has_slash p'
  end.

(** [os.path.basename]: what follows the last slash. *)
Fixpoint basename (p : string) : string :=
  match p with
  | EmptyString => EmptyString
  | String c p' =>
      if has_slash p' then basename p'
      else if decide (c = "/"%char) then p' else p
  end.

Definition i_thalweg_cache : bool := false.
Definition i_grouping_cache : bool := true.
Definition iValidateCache : bool := false.
Definition cache_folder : string := "./Cache/".

Definition cache_name (dems_json_file thalweg_shp_fname : string) : string :=
  cache_folder +:+ basename dems_json_file +:+ "_" +:+
  basename thalweg_shp_fname +:+ "_grouping.cache".

(** The external grouping routine, called with [dems_json_file],
    [thalweg_shp_fname], [thalweg_buffer], [iNoPrint] and
    [i_thalweg_cache]. *)
Definition grouper := string → string → Z → bool → bool → pyobj * pyobj * pyobj.

Inductive origin := FromCache | Recomputed.

(** The [try] block of lines 132-137: only [FileNotFoundError] is
    caught, and then the three variables keep their initial [None]. *)
Definition read_grouping_cache (P : pickle_lib) (fs : gmap string (bytes P))
    (name : string) : result (pyobj * pyobj * pyobj) :=
  let attempt :=
    match fs !! name with
    | None => Raise FileNotFoundError
    | Some content => o ← pickle_load P content; unpack3 o
    end in
  match attempt with
  | Raise FileNotFoundError => Ok (PyNone, PyNone, PyNone)
  | r => r
  end.

(** Lines 121-149 on rank 0: the grouping, the store of cache files
    afterwards, and where the grouping came from. *)
Definition grouping_phase (P : pickle_lib) (find_thalweg_tile : grouper)
    (dems_json_file thalweg_shp_fname : string) (thalweg_buffer : Z)
    (fs : gmap string (bytes P))
  : result ((pyobj * pyobj * pyobj) * gmap string (bytes P) * origin) :=
  let name := cache_name dems_json_file thalweg_shp_fname in
  '(thalwegs2tile_groups, tile_groups_files, tile_groups2thalwegs) ←
    (if i_grouping_cache then read_grouping_cache P fs name
     else Ok (PyNone, PyNone, PyNone));
  match thalwegs2tile_groups with
  | PyNone =>
      let '(thalwegs2tile_groups, tile_groups_files, tile_groups2thalwegs) :=
        find_thalweg_tile dems_json_file thalweg_shp_fname thalweg_buffer
                          false i_thalweg_cache in
      let fs :=
        if i_grouping_cache
        then <[name := pickle_dump P (PyList [thalwegs2tile_groups; tile_groups_files;
                                              tile_groups2thalwegs])]> fs
        else fs in
      Ok ((thalwegs2tile_groups, tile_groups_files, tile_groups2thalwegs), fs, Recomputed)
  | _ => Ok ((thalwegs2tile_groups, tile_groups_files, tile_groups2thalwegs), fs, FromCache)
  end.

(** What the specification asks of the cache: a missing file and a file
    whose content cannot be loaded both end in a recomputation. *)
Definition cache_fault_tolerant (P : pickle_lib) (find_thalweg_tile : grouper) : Prop :=
  ∀ dems_json_file thalweg_shp_fname thalweg_buffer (fs : gmap string (bytes P)),
    let name := cache_name dems_json_file thalweg_shp_fname in
    (fs !! name = None ∨
     ∃ content e, fs !! name = Some content ∧
                  (o ← pickle_load P content; unpack3 o) = Raise e) →
    ∃ fs',
      grouping_phase P find_thalweg_tile dems_json_file thalweg_shp_fname
                     thalweg_buffer fs
      = Ok (find_thalweg_tile dems_json_file thalweg_shp_fname thalweg_buffer
                              false i_thalweg_cache, fs', Recomputed).

(** A grouping routine to run the driver on: one group holding thalweg 0
    and one tile. *)
Definition one_group : grouper :=
  λ _ _ _ _ _, (PyList [PyInt 0], PyList [PyList [PyStr "a.tif"]], PyList [PyList [PyInt 0]]).

(** ** TileCache: the DEM pre-caching pass (lines 167-181) *)

(** Lines 168-172: the tile files of all groups, without [None] and
    without repetition, in order of first occurrence. *)
Definition unique_tile_files (tile_groups_files : list (list (option string)))
  : list string :=
  foldl (λ unique group,
           foldl (λ unique file,
                    match file with
                    | Some f => if decide (f ∈ unique) then unique else unique ++ [f]
                    | None => unique
                    end) unique group)
        [] tile_groups_files.

(** The pass with the validation switch as an argument; the result is
    the list of files handed to [Tif2XYZ], in call order. *)
Definition dem_cache_pass (i_DEM_cache validate : bool)
    (tile_groups_files : list (list (option string))) (size rank : Z)
  : result (list string) :=
  if i_DEM_cache then
    let unique_tile_files := unique_tile_files tile_groups_files in
    if validate then
      idx ← my_mpi_idx (Z.of_nat (length unique_tile_files)) size rank;
      mine ← Np.getitem_pair_1d unique_tile_files idx;
      Ok mine
    else Ok []
  else Ok [].

(** The pass as the driver runs it. *)
Definition driver_dem_cache (i_DEM_cache : bool)
    (tile_groups_files : list (list (option string))) (size rank : Z)
  : result (list string) :=
  dem_cache_pass i_DEM_cache iValidateCache tile_groups_files size rank.

(** What the specification asks: every needed tile file is pre-parsed by
    exactly one of the workers. *)
Definition prewarm_exactly_once (tile_groups_files : list (list (option string)))
    (size : Z) : Prop :=
  ∀ f, f ∈ unique_tile_files tile_groups_files →
    ∃ rank, 0 ≤ rank < size ∧
      (∃ calls, driver_dem_cache true tile_groups_files size rank = Ok calls ∧ f ∈ calls) ∧
      (∀ rank' calls, 0 ≤ rank' < size →
         driver_dem_cache true tile_groups_files size rank' = Ok calls →
         f ∈ calls → rank' = rank).

(** ** GroupProcessor: the processing loop (lines 187-213) *)

(** How an f-string renders an integer: [str(z)]. *)
Definition str_of_Z (z : Z) : string := NilZero.string_of_int (Z.to_int z).

(** [f'Group_{my_group_id}_{rank}_{i}_'] *)
Definition output_prefix (my_group_id rank i : Z) : string :=
  "Group_" +:+ str_of_Z my_group_id +:+ "_" +:+ str_of_Z rank +:+ "_" +:+
  str_of_Z i +:+ "_".

(** [f'[Rank {rank}, Group {i+1} of {len(my_tile_groups)}, global: {my_group_id}] '] *)
Definition mpi_print_prefix (rank i n my_group_id : Z) : string :=
  "[Rank " +:+ str_of_Z rank +:+ ", Group " +:+ str_of_Z (i + 1) +:+ " of " +:+
  str_of_Z n +:+ ", global: " +:+ str_of_Z my_group_id +:+ "] ".

(** One invocation of the external routine [make_river_map], by its
    keyword arguments. *)
Record river_map_call := {
  tif_fnames : list (option string);
  call_thalweg_shp_fname : string;
  selected_thalweg : list Z;
  call_output_dir : string;
  call_output_prefix : string;
  call_mpi_print_prefix : string;
}.

(** The loop of lines 198-213: the invocations in order. *)
Definition process_groups (thalweg_shp_fname output_dir : string) (rank : Z)
    (my_group_ids : list Z) (my_tile_groups : list (list (option string)))
    (my_tile_groups_thalwegs : list (list Z)) : list river_map_call :=
  imap (λ (i : nat) '(my_group_id, (my_tile_group, my_tile_group_thalwegs)),
          {| tif_fnames := my_tile_group;
             call_thalweg_shp_fname := thalweg_shp_fname;
             selected_thalweg := my_tile_group_thalwegs;
             call_output_dir := output_dir;
             call_output_prefix := output_prefix my_group_id rank (Z.of_nat i);
             call_mpi_print_prefix :=
               mpi_print_prefix rank (Z.of_nat i) (Z.of_nat (length my_tile_groups))
                                my_group_id |})
       (zip my_group_ids (zip my_tile_groups my_tile_groups_thalwegs)).

(** Lines 187-213 on one rank. *)
Definition driver_map_generation (thalweg_shp_fname output_dir : string)
    (tile_groups_files : list (list (option string)))
    (tile_groups2thalwegs : list (list Z)) (size rank : Z)
  : result (list river_map_call) :=
  '(my_group_ids, i_my_groups) ←
    my_mpi_idx (Z.of_nat (length tile_groups_files)) size rank;
  my_tile_groups ← Np.getitem_mask tile_groups_files i_my_groups;
  my_tile_groups_thalwegs ← Np.getitem_mask tile_groups2thalwegs i_my_groups;
  Ok (process_groups thalweg_shp_fname output_dir rank (Np.data my_group_ids)
                     my_tile_groups my_tile_groups_thalwegs).

Fixpoint no_underscore (s : string) : Prop :=
  match s with
  | EmptyString => True
  | String c s' => c ≠ "_"%char ∧ no_underscore s'
  end.

(** ** ResultMerger: [merge_outputs] (lines 38-53) *)

(** Matching of a file name against a pattern made of literal characters
    and [*], the only wildcard the driver uses. *)
Fixpoint fnmatch (pattern name : string) : bool :=
  match pattern with
  | EmptyString =>
      match name with
      | EmptyString => true
      | String _ _ => false
      end
  | String c pattern' =>
      if decide (c = "*"%char) then
        (fix star (name : string) : bool :=
           fnmatch pattern' name ||
           match name with
           | EmptyString => false
           | String _ name' => star name'
           end) name
      else
        match name with
        | EmptyString => false
        | String d name' => if decide (c = d) then fnmatch pattern' name' else false
        end
  end.

(** [glob] does not let a leading [*] match a name that starts with a dot. *)
Definition glob_match (pattern name : string) : bool :=
  match pattern, name with
  | String "." _, _ => fnmatch pattern name
  | _, String "." _ => false
  | _, _ => fnmatch pattern name
  end.

(** [glob(f'{output_dir}/{pattern}')]: the matching entries of a
    directory, by name. *)
Definition glob {A} (files : gmap string A) (pattern : string) : list (string * A) :=
  filter (λ f, glob_match pattern f.1 = true) (map_to_list files).

(** A line network is the list of its arcs; a polygon file is a frame
    of features with the coordinate reference it declares, if any.  Arcs
    and features are kept by identity, coordinates are left out. *)
Abbreviation arc := Z.
Record shapefile := { crs : option string; features : list Z }.

(** The shared output directory: the [.map] files and the shapefiles. *)
Record out_dir := {
  map_files : gmap string (list arc);
  shp_files : gmap string shapefile;
}.

(** Modelled from the spec: [merge_maps] of [RiverMapper.SMS], which is
    not among the sources.  It unions the line networks of the files
    that match the pattern into one network, keeping duplicate arcs,
    writes the union under [merged_fname] and returns it; a pattern
    without a matching file is no error and gives the empty network. *)
Definition merge_maps (d : out_dir) (pattern merged_fname : string)
  : list arc * out_dir :=
  let total := concat (glob (map_files d) pattern).*2 in
  (total, {| map_files := <[merged_fname := total]> (map_files d);
             shp_files := shp_files d |}).

(** [GeoDataFrame.to_crs]: a frame without a coordinate reference cannot
    be re-projected. *)
Definition to_crs (target : string) (s : shapefile) : result shapefile :=
  match crs s with
  | None => Raise ValueError
  | Some _ => Ok {| crs := Some target; features := features s |}
  end.

(** [pd.concat]: there must be at least one frame. *)
Definition pd_concat (frames : list shapefile) : result shapefile :=
  match frames with
  | [] => Raise ValueError
  | f :: _ => Ok {| crs := crs f; features := concat (features <$> frames) |}
  end.

(** Lines 49 and 50:
    [pd.concat([read_file(x).to_crs('epsg:4326') for x in glob(pattern)]).to_file(merged)] *)
Definition merge_shapefiles (d : out_dir) (pattern merged_fname : string)
  : result out_dir :=
  frames ← result_map (to_crs "epsg:4326") (glob (shp_files d) pattern).*2;
  total ← pd_concat frames;
  Ok {| map_files := map_files d;
        shp_files := <[merged_fname := total]> (shp_files d) |}.

Definition merge_outputs (output_dir : out_dir)
  : result ((list arc * list arc) * out_dir) :=
  let '(total_map, d) := merge_maps output_dir "*_total_arcs.map" "total_arcs.map" in
  let '(total_intersection_joints, d) :=
    merge_maps d "*intersection_joints*.map" "total_intersection_joints.map" in
  let '(_, d) := merge_maps d "*river_arcs.map" "total_river_arcs.map" in
  let '(_, d) := merge_maps d "*centerlines.map" "total_centerlines.map" in
  let '(_, d) := merge_maps d "*bank_final*.map" "total_banks_final.map" in
  d ← merge_shapefiles d "*river_outline*.shp" "total_river_outline.shp";
  d ← merge_shapefiles d "*bomb*.shp" "total_bomb_polygons.shp";
  Ok ((total_map, total_intersection_joints), d).

(** The artifact categories: the pattern that finds the partial files
    and the name of the merged file. *)
Definition map_categories : list (string * string) :=
  [("*_total_arcs.map", "total_arcs.map");
   ("*intersection_joints*.map", "total_intersection_joints.map");
   ("*river_arcs.map", "total_river_arcs.map");
   ("*centerlines.map", "total_centerlines.map");
   ("*bank_final*.map", "total_banks_final.map")].

Definition shp_categories : list (string * string) :=
  [("*river_outline*.shp", "total_river_outline.shp");
   ("*bomb*.shp", "total_bomb_polygons.shp")].

(** What the specification asks: the merge succeeds, and a category
    without partial files gets an empty merged artifact. *)
Definition tolerates_empty_categories (d : out_dir) : Prop :=
  ∃ r d',
    merge_outputs d = Ok (r, d') ∧
    (∀ pattern merged, (pattern, merged) ∈ map_categories →
       glob (map_files d) pattern = [] → map_files d' !! merged = Some []) ∧
    (∀ pattern merged, (pattern, merged) ∈ shp_categories →
       glob (shp_files d) pattern = [] →
       ∃ c, shp_files d' !! merged = Some {| crs := c; features := [] |}).

(** The output of one worker that produced every artifact but the river
    outline. *)
Definition no_outline_dir : out_dir := {|
  map_files :=
    {[ "Group_0_0_0_total_arcs.map" := [1; 2];
       "Group_0_0_0_intersection_joints.map" := [3];
       "Group_0_0_0_river_arcs.map" := [1];
       "Group_0_0_0_centerlines.map" := [4];
       "Group_0_0_0_bank_final.map" := [5] ]};
  shp_files :=
    {[ "Group_0_0_0_bomb_polygons.shp" := {| crs := Some "epsg:4326"; features := [6] |} ]};
|}.

(** The output of one worker that produced only the two shapefiles. *)
Definition shapes_only_dir : out_dir := {|
  map_files := ∅;
  shp_files :=
    {[ "Group_0_0_0_river_outline.shp" := {| crs := Some "epsg:26918"; features := [7] |};
       "Group_0_0_0_bomb_polygons.shp" := {| crs := Some "epsg:4326"; features := [6] |} ]};
|}.

(** ** Further parts of the driver *)

(** [np.argwhere(i_my_groups)], flattened (line 190): the positions that
    hold [True], in increasing order. *)
Fixpoint argwhere_from (i : Z) (mask : list bool) : list Z :=
  match mask with
  | [] => []
  | b :: mask' =>
      if b then i :: argwhere_from (i + 1) mask' else argwhere_from (i + 1) mask'
  end.
Definition argwhere (mask : list bool) : list Z := argwhere_from 0 mask.

(** A cache directory that already holds a grouping for
    ["dems.json"] and ["thalwegs.shp"]. *)
Definition warm_cache : gmap string stream :=
  {[ cache_name "./dems.json" "thalwegs.shp" := Pickled (PyList [PyInt 7; PyNone; PyNone]) ]}.

(** A grouping routine whose result shows the arguments it was called
    with. *)
Definition echo_grouper : grouper :=
  λ dems_json_file thalweg_shp_fname thalweg_buffer _ _,
    (PyStr dems_json_file, PyStr thalweg_shp_fname, PyInt thalweg_buffer).

(** * Properties *)

(** ** The result monad *)

Lemma result_map_ok {A B} (f : A → result B) (g : A → B) (xs : list A) :
  (∀ x, x ∈ xs → f x = Ok (g x)) → result_map f xs = Ok (g <$> xs).
Proof.
  induction xs as [|x xs IH]; intros Hf; [done|].
  cbn [result_map]. rewrite (Hf x) by left. cbn.
  rewrite IH by (intros y Hy; apply Hf; by right). done.
Qed.

Lemma normalize_index_in_range (len : nat) (i : Z) :
  0 ≤ i < Z.of_nat len → normalize_index len i = Ok (Z.to_nat i).
Proof. intros H. unfold normalize_index. by rewrite decide_True. Qed.

(** ** Division points of [array_split] *)

Lemma cumsum_from_length acc l : length (Np.cumsum_from acc l) = length l.
Proof. revert acc. induction l as [|x l IH]; intros acc; cbn; [done|]. by rewrite IH. Qed.

Lemma cumsum_from_app acc l1 l2 :
  Np.cumsum_from acc (l1 ++ l2)
  = Np.cumsum_from acc l1 ++ Np.cumsum_from (acc + sumZ l1) l2.
Proof.
  revert acc. induction l1 as [|x l1 IH]; intros acc; cbn.
  - by rewrite Z.add_0_r.
  - rewrite IH. do 3 f_equal. unfold sumZ. lia.
Qed.

Lemma sumZ_replicate (n : nat) x : sumZ (replicate n x) = Z.of_nat n * x.
Proof. induction n as [|n IH]; [done|]. cbn [replicate sumZ foldr]. fold (sumZ (replicate n x)). lia. Qed.

Lemma cumsum_from_replicate acc (n i : nat) x :
  (i < n)%nat →
  Np.cumsum_from acc (replicate n x) !! i = Some (acc + (Z.of_nat i + 1) * x).
Proof.
  revert acc i. induction n as [|n IH]; intros acc i Hi; [lia|].
  cbn [replicate Np.cumsum_from]. rewrite lookup_cons. destruct i as [|i].
  - f_equal. lia.
  - rewrite IH by lia. f_equal. rewrite Nat2Z.inj_succ. ring.
Qed.

Lemma div_points_lookup (N size : Z) (i : nat) :
  0 ≤ N → 1 ≤ size → Z.of_nat i ≤ size →
  Np.cumsum (Np.section_sizes N size) !! i = Some (share_start N size (Z.of_nat i)).
Proof.
  intros HN Hs Hi. unfold Np.cumsum, Np.section_sizes, share_start.
  pose proof (Z.mod_pos_bound N size ltac:(lia)) as He.
  set (q := N `div` size). set (e := N `mod` size) in *.
  cbn [app Np.cumsum_from]. rewrite lookup_cons.
  destruct i as [|k]; [f_equal; lia|].
  rewrite cumsum_from_app, sumZ_replicate.
  destruct (decide (Z.of_nat k < e)) as [Hk|Hk].
  - rewrite lookup_app_l by (rewrite cumsum_from_length, length_replicate; lia).
    rewrite cumsum_from_replicate by lia. f_equal. lia.
  - rewrite lookup_app_r by (rewrite cumsum_from_length, length_replicate; lia).
    rewrite cumsum_from_length, length_replicate.
    rewrite cumsum_from_replicate by lia. f_equal.
    rewrite Nat2Z.inj_sub by lia. rewrite Z2Nat.id by lia. lia.
Qed.

Lemma div_points_lookup_total (N size : Z) (i : nat) :
  0 ≤ N → 1 ≤ size → Z.of_nat i ≤ size →
  Np.cumsum (Np.section_sizes N size) !!! i = share_start N size (Z.of_nat i).
Proof.
  intros. rewrite list_lookup_total_alt, div_points_lookup by done. done.
Qed.

(** ** The closed form of the shares *)

Section shares.
Variables N size : Z.
Hypothesis HN : 0 ≤ N.
Hypothesis Hsize : 1 ≤ size.

Lemma share_start_0 : share_start N size 0 = 0.
Proof.
  unfold share_start. pose proof (Z.mod_pos_bound N size ltac:(lia)). lia.
Qed.

Lemma share_start_size : share_start N size size = N.
Proof.
  unfold share_start. pose proof (Z.mod_pos_bound N size ltac:(lia)).
  pose proof (Z.div_mod N size ltac:(lia)). lia.
Qed.

Lemma share_start_succ r :
  0 ≤ r → share_start N size (r + 1) = share_start N size r + share_len N size r.
Proof.
  intros Hr. unfold share_start, share_len.
  pose proof (Z.mod_pos_bound N size ltac:(lia)). case_decide; lia.
Qed.

Lemma share_len_nonneg r : 0 ≤ share_len N size r.
Proof.
  unfold share_len. pose proof (Z.div_pos N size HN ltac:(lia)).
  case_decide; lia.
Qed.

Lemma share_start_nonneg r : 0 ≤ r → 0 ≤ share_start N size r.
Proof.
  intros Hr. unfold share_start.
  pose proof (Z.mod_pos_bound N size ltac:(lia)).
  pose proof (Z.div_pos N size HN ltac:(lia)). nia.
Qed.

Lemma share_start_mono r1 r2 :
  0 ≤ r1 → r1 ≤ r2 → share_start N size r1 ≤ share_start N size r2.
Proof.
  intros H1 H2. unfold share_start.
  pose proof (Z.div_pos N size HN ltac:(lia)). nia.
Qed.

Lemma share_end_le r :
  0 ≤ r < size → share_start N size r + share_len N size r ≤ N.
Proof.
  intros Hr. rewrite <- share_start_succ by lia.
  rewrite <- share_start_size at 2. apply share_start_mono; lia.
Qed.
End shares.

Lemma slice_seqZ (N st en : Z) :
  0 ≤ st → st ≤ en → en ≤ N →
  take (Z.to_nat (en - st)) (drop (Z.to_nat st) (seqZ 0 N)) = seqZ st (en - st).
Proof.
  intros H1 H2 H3.
  replace N with (st + ((en - st) + (N - en))) by lia.
  rewrite seqZ_app by lia. rewrite drop_app_length' by (by rewrite length_seqZ).
  rewrite seqZ_app by lia. rewrite take_app_length' by (by rewrite length_seqZ).
  by rewrite Z.add_0_l.
Qed.

Lemma array_split_range_lookup (N size : Z) (r : nat) :
  0 ≤ N → 1 ≤ size → Z.of_nat r < size →
  ∃ groups,
    Np.array_split_range N size = Ok groups ∧
    length groups = Z.to_nat size ∧
    groups !! r = Some {| Np.dtype_of := if decide (0 < N) then Np.int64 else Np.float64;
                          Np.data := seqZ (share_start N size (Z.of_nat r))
                                          (share_len N size (Z.of_nat r)) |}.
Proof.
  intros HN Hs Hr. unfold Np.array_split_range.
  rewrite decide_False by lia. eexists. split; [done|]. split.
  - by rewrite length_fmap, length_seq.
  - rewrite list_lookup_fmap, lookup_seq_lt by lia.
    cbn [fmap option_fmap option_map Nat.add].
    rewrite Z.max_r by lia.
    rewrite !div_points_lookup_total by lia.
    unfold Np.slice, Np.asarray_range. cbn. f_equal. f_equal.
    rewrite Nat2Z.inj_succ, <- Z.add_1_r, share_start_succ by lia.
    rewrite slice_seqZ.
    + f_equal. lia.
    + apply share_start_nonneg; lia.
    + pose proof (share_len_nonneg N size HN Hs (Z.of_nat r)). lia.
    + apply share_end_le; lia.
Qed.

(** ** Writing [True] at a list of positions *)

Lemma foldl_set_true_length (a : list bool) (js : list nat) :
  length (foldl (λ acc j, <[j:=true]> acc) a js) = length a.
Proof.
  revert a. induction js as [|x js IH]; intros a; cbn; [done|].
  by rewrite IH, length_insert.
Qed.

Lemma foldl_set_true_lookup (a : list bool) (js : list nat) (j : nat) :
  foldl (λ acc j, <[j:=true]> acc) a js !! j = Some true
  ↔ (j ∈ js ∧ (j < length a)%nat) ∨ a !! j = Some true.
Proof.
  revert a. induction js as [|x js IH]; intros a; cbn.
  - split; [by right|]. intros [[H _]|H]; [by apply elem_of_nil in H|done].
  - rewrite IH, length_insert, elem_of_cons.
    destruct (decide (x = j)) as [->|Hne].
    + destruct (decide (j < length a)%nat) as [Hlt|Hge].
      * rewrite list_lookup_insert_eq by done. tauto.
      * rewrite list_insert_ge by lia. intuition lia.
    + rewrite list_lookup_insert_ne by done. intuition congruence.
Qed.

Lemma setitem_true_in_range (a : list bool) (ids : list Z) :
  (∀ k, k ∈ ids → 0 ≤ k < Z.of_nat (length a)) →
  Np.setitem_true a {| Np.dtype_of := Np.int64; Np.data := ids |}
  = Ok (foldl (λ acc j, <[j:=true]> acc) a (Z.to_nat <$> ids)).
Proof.
  intros Hids. unfold Np.setitem_true. cbn [Np.dtype_of Np.data].
  rewrite (result_map_ok _ Z.to_nat); [done|].
  intros k Hk. by apply normalize_index_in_range, Hids.
Qed.

(** ** What [my_mpi_idx] returns *)

Lemma my_mpi_idx_ok (N size rank : Z) :
  1 ≤ N ≤ Np.intp_max → 1 ≤ size → 0 ≤ rank < size →
  my_mpi_idx N size rank
  = Ok ({| Np.dtype_of := Np.int64;
           Np.data := seqZ (share_start N size rank) (share_len N size rank) |},
        share_mask N size rank).
Proof.
  intros HN Hs Hr. unfold my_mpi_idx, Np.zeros_bool.
  rewrite decide_False by lia. cbn [mbind result_bind].
  destruct (array_split_range_lookup N size (Z.to_nat rank)) as (groups & -> & Hlen & Hg);
    [lia..|].
  cbn [mbind result_bind]. unfold list_getitem.
  rewrite normalize_index_in_range by lia. cbn [mbind result_bind].
  rewrite Hg, decide_True by lia. rewrite Z2Nat.id by lia.
  cbn [mbind result_bind].
  rewrite setitem_true_in_range; [done|].
  intros k Hk%elem_of_seqZ. rewrite length_replicate.
  pose proof (share_start_nonneg N size ltac:(lia) Hs rank ltac:(lia)).
  pose proof (share_end_le N size ltac:(lia) Hs rank Hr). lia.
Qed.

Lemma share_mask_length (N size rank : Z) :
  length (share_mask N size rank) = Z.to_nat N.
Proof. unfold share_mask. by rewrite foldl_set_true_length, length_replicate. Qed.

Lemma share_mask_lookup (N size rank : Z) (j : nat) :
  0 ≤ N → 1 ≤ size → 0 ≤ rank < size →
  share_mask N size rank !! j = Some true
  ↔ Z.of_nat j ∈ seqZ (share_start N size rank) (share_len N size rank).
Proof.
  intros HN Hs Hr. unfold share_mask.
  rewrite foldl_set_true_lookup, length_replicate, list_elem_of_fmap.
  pose proof (share_start_nonneg N size HN Hs rank ltac:(lia)).
  pose proof (share_end_le N size HN Hs rank Hr).
  split.
  - intros [[(k & -> & Hk) _]|H'].
    + apply elem_of_seqZ in Hk. rewrite Z2Nat.id by lia. by apply elem_of_seqZ.
    + apply lookup_replicate in H' as [? _]. done.
  - intros Hj. pose proof Hj as Hj'%elem_of_seqZ. left. split; [|lia].
    exists (Z.of_nat j). by rewrite Nat2Z.id.
Qed.

Lemma my_mpi_idx_empty_raises (size rank : Z) :
  1 ≤ size → 0 ≤ rank < size → my_mpi_idx 0 size rank = Raise IndexError.
Proof.
  intros Hs Hr. unfold my_mpi_idx, Np.zeros_bool.
  rewrite decide_False by (unfold Np.intp_max; lia). cbn [mbind result_bind].
  destruct (array_split_range_lookup 0 size (Z.to_nat rank)) as (groups & -> & Hlen & Hg);
    [lia..|].
  cbn [mbind result_bind]. unfold list_getitem.
  rewrite normalize_index_in_range by lia. cbn [mbind result_bind].
  rewrite Hg. done.
Qed.

Lemma concat_shares (N size : Z) (k : nat) :
  0 ≤ N → 1 ≤ size →
  concat ((λ r : nat, seqZ (share_start N size (Z.of_nat r)) (share_len N size (Z.of_nat r)))
            <$> seq 0 k)
  = seqZ 0 (share_start N size (Z.of_nat k)).
Proof.
  intros HN Hs. induction k as [|k IH].
  - cbn [seq fmap list_fmap concat]. change (Z.of_nat 0) with 0.
    by rewrite share_start_0, seqZ_nil by lia.
  - rewrite seq_S, fmap_app, concat_app, IH. cbn [fmap list_fmap concat Nat.add].
    rewrite app_nil_r, Nat2Z.inj_succ, <- Z.add_1_r, share_start_succ by lia.
    rewrite seqZ_app; [done| |].
    + apply share_start_nonneg; lia.
    + by apply share_len_nonneg.
Qed.

Lemma share_elem (N size r j : Z) :
  0 ≤ N → 1 ≤ size → 0 ≤ r →
  j ∈ seqZ (share_start N size r) (share_len N size r)
  ↔ share_start N size r ≤ j < share_start N size (r + 1).
Proof. intros. rewrite elem_of_seqZ, share_start_succ by done. done. Qed.

(** X16.  Coverage where there is work: for every N with
    1 <= N <= intp_max and every size >= 1, [my_mpi_idx] returns a share
    for every rank 0..size-1; the shares of different ranks are
    disjoint, their union is exactly {0,...,N-1}, and every index occurs
    exactly once. *)
Theorem my_mpi_idx_coverage (N size : Z) :
  1 ≤ N ≤ Np.intp_max → 1 ≤ size → partition_coverage N size.
Proof.
  intros HN Hs.
  set (share := λ r : nat, seqZ (share_start N size (Z.of_nat r))
                                (share_len N size (Z.of_nat r))).
  assert (Hlook : ∀ (r : nat) s, (share <$> seq 0 (Z.to_nat size)) !! r = Some s
                    → (r < Z.to_nat size)%nat ∧ s = share r).
  { intros r s. rewrite list_lookup_fmap. intros H.
    destruct (seq 0 (Z.to_nat size) !! r) as [r'|] eqn:E; [|done].
    apply lookup_seq in E as [-> ?]. cbn in H. split; [done|congruence]. }
  assert (Hcat : concat (share <$> seq 0 (Z.to_nat size)) = seqZ 0 N).
  { unfold share. rewrite concat_shares by lia.
    rewrite Z2Nat.id by lia. by rewrite share_start_size by lia. }
  exists (share <$> seq 0 (Z.to_nat size)). split_and!.
  - by rewrite length_fmap, length_seq.
  - intros r Hr. eexists _, _. split; [apply my_mpi_idx_ok; lia|].
    rewrite list_lookup_fmap, lookup_seq_lt by done. done.
  - intros r1 r2 s1 s2 j Hne [H1 ->]%Hlook [H2 ->]%Hlook Hj1 Hj2.
    unfold share in *.
    apply share_elem in Hj1; [|lia..]. apply share_elem in Hj2; [|lia..].
    destruct (decide (r1 < r2)%nat).
    + pose proof (share_start_mono N size ltac:(lia) Hs (Z.of_nat r1 + 1) (Z.of_nat r2)
                    ltac:(lia) ltac:(lia)). lia.
    + pose proof (share_start_mono N size ltac:(lia) Hs (Z.of_nat r2 + 1) (Z.of_nat r1)
                    ltac:(lia) ltac:(lia)). lia.
  - intros j. rewrite <- (Z.add_0_l N), <- elem_of_seqZ, <- Hcat.
    rewrite list_elem_of_In, in_concat. setoid_rewrite list_elem_of_In. done.
  - by rewrite Hcat.
Qed.

Lemma my_mpi_idx_coverage_witness : partition_coverage 10 3.
Proof. apply my_mpi_idx_coverage; unfold Np.intp_max; lia. Defined.

(** C1.  The code at the failing input N = 0, size = 1: coverage of the
    empty index set asks rank 0 for the empty share, but with no task
    at all [np.array_split] hands out empty float64 arrays, the index
    assignment of line 35 refuses them, and rank 0 gets no share. *)
Theorem my_mpi_idx_coverage_fails_empty : ¬ partition_coverage 0 1.
Proof.
  intros (shares & _ & Hret & _).
  destruct (Hret 0%nat ltac:(lia)) as (ids & mask & Hcall & _).
  vm_compute in Hcall. discriminate.
Qed.

(** X17.  Balance where there is work: for every N with
    1 <= N <= intp_max, size >= 1 and rank in [0,size), the share of
    [rank] is a run of consecutive indices of 0..N-1, the ranks below
    [N mod size] hold one index more than the others, and the sizes of
    any two shares differ by at most one. *)
Theorem my_mpi_idx_balanced (N size : Z) :
  1 ≤ N ≤ Np.intp_max → 1 ≤ size → partition_balanced N size.
Proof.
  intros HN Hs.
  assert (Hlen : ∀ r, Z.of_nat (length (seqZ (share_start N size r) (share_len N size r)))
                      = share_len N size r).
  { intros r. rewrite length_seqZ, Z2Nat.id; [done|]. apply share_len_nonneg; lia. }
  split.
  - intros rank Hr. eexists _, _, (share_start N size rank).
    split; [apply my_mpi_idx_ok; lia|].
    cbn [Np.data]. rewrite Hlen. split_and!; [| |done|done].
    + apply share_start_nonneg; lia.
    + apply share_end_le; lia.
  - intros r1 r2 ids1 mask1 ids2 mask2 Hr1 Hr2.
    rewrite !my_mpi_idx_ok by lia. intros [= <- _] [= <- _].
    cbn [Np.data]. rewrite !Hlen. unfold share_len. repeat case_decide; lia.
Qed.

Lemma my_mpi_idx_balanced_witness : partition_balanced 10 3.
Proof. apply my_mpi_idx_balanced; unfold Np.intp_max; lia. Defined.

(** C2.  The code at the failing input N = 0, size = 1: the balanced
    split of no task gives rank 0 the empty slice, but the call raises
    before returning, so rank 0 of a single worker gets no partition. *)
Theorem my_mpi_idx_balanced_fails_empty : ¬ partition_balanced 0 1.
Proof.
  intros [Hret _].
  destruct (Hret 0 ltac:(lia)) as (ids & mask & st & Hcall & _).
  vm_compute in Hcall. discriminate.
Qed.

(** X18.  Where there is work the call returns a consistent pair: for
    every N with 1 <= N <= intp_max, size >= 1 and rank in [0,size),
    [my_mpi_idx] returns, the boolean vector has length N and is [True]
    at position j exactly when j is in the returned index sequence. *)
Theorem my_mpi_idx_mask_consistent (N size rank : Z) :
  1 ≤ N ≤ Np.intp_max → 1 ≤ size → 0 ≤ rank < size → mask_consistent N size rank.
Proof.
  intros HN Hs Hr. eexists _, _. split; [apply my_mpi_idx_ok; lia|].
  split; [apply share_mask_length|]. intros j. cbn [Np.data].
  rewrite share_mask_lookup by lia. split.
  - intros Hj. pose proof Hj as Hj'%elem_of_seqZ.
    pose proof (share_start_nonneg N size ltac:(lia) Hs rank ltac:(lia)).
    split; [lia|]. by rewrite Z2Nat.id by lia.
  - intros [Hj0 Hj]. by rewrite Z2Nat.id in Hj by lia.
Qed.

Lemma my_mpi_idx_mask_consistent_witness : mask_consistent 10 3 1.
Proof. apply my_mpi_idx_mask_consistent; unfold Np.intp_max; lia. Defined.

(** ** The store view agrees with the value view *)

Lemma my_mpi_idx_heap_spec (N size rank : Z) (h : heap) :
  my_mpi_idx_heap N size rank h
  = '(ids, mask) ← my_mpi_idx N size rank; Ok ((ids, length h), h ++ [mask]).
Proof.
  unfold my_mpi_idx_heap, my_mpi_idx, zeros_alloc.
  destruct (Np.zeros_bool N) as [a|e]; [|done]. cbn [mbind result_bind].
  destruct (Np.array_split_range N size) as [groups|e]; [|done].
  cbn [mbind result_bind].
  destruct (list_getitem groups rank) as [ids|e]; [|done].
  cbn [mbind result_bind]. unfold setitem_true_at.
  rewrite list_lookup_middle by done. cbn [from_option id].
  destruct (Np.setitem_true a ids) as [a'|e]; [|done].
  cbn [mbind result_bind].
  rewrite insert_app_r_alt by lia. by rewrite Nat.sub_diag.
Qed.

(** C9.  Two calls of [my_mpi_idx] with the same arguments give the same
    result: whatever the store holds before the first call, both calls
    return what the arguments alone determine, and the second call
    leaves the array returned by the first untouched. *)
Theorem my_mpi_idx_deterministic (N size rank : Z) (h : heap) :
  call_twice N size rank h = r ← my_mpi_idx N size rank; Ok (r, r).
Proof.
  unfold call_twice. rewrite my_mpi_idx_heap_spec.
  destruct (my_mpi_idx N size rank) as [[ids mask]|e] eqn:E; [|done].
  cbn [mbind result_bind]. rewrite my_mpi_idx_heap_spec, E.
  cbn [mbind result_bind].
  rewrite lookup_app_l by (rewrite length_app; cbn; lia).
  rewrite list_lookup_middle by done.
  rewrite list_lookup_middle by (by rewrite length_app; cbn; lia).
  done.
Qed.

(** ** The grouping cache *)

Section grouping_cache.
Context (P : pickle_lib) (find_thalweg_tile : grouper).
Context (dems_json_file thalweg_shp_fname : string) (thalweg_buffer : Z).

Let name := cache_name dems_json_file thalweg_shp_fname.
Let fresh :=
  find_thalweg_tile dems_json_file thalweg_shp_fname thalweg_buffer false i_thalweg_cache.
Let run := grouping_phase P find_thalweg_tile dems_json_file thalweg_shp_fname
                          thalweg_buffer.

Lemma grouping_phase_absent (fs : gmap string (bytes P)) :
  fs !! name = None →
  run fs = Ok (fresh, <[name := pickle_dump P (PyList [fresh.1.1; fresh.1.2; fresh.2])]> fs,
               Recomputed).
Proof.
  intros Habs. unfold run, grouping_phase, read_grouping_cache. cbn [i_grouping_cache].
  fold name. rewrite Habs. cbn [mbind result_bind]. fold fresh.
  by destruct fresh as [[a b] c].
Qed.

Lemma grouping_phase_unreadable (fs : gmap string (bytes P)) content e :
  fs !! name = Some content →
  (o ← pickle_load P content; unpack3 o) = Raise e →
  e ≠ FileNotFoundError →
  run fs = Raise e.
Proof.
  intros Hc He Hne. unfold run, grouping_phase, read_grouping_cache.
  cbn [i_grouping_cache]. fold name. rewrite Hc, He.
  by destruct e.
Qed.

Lemma grouping_phase_cached (fs : gmap string (bytes P)) a b c :
  pickle_roundtrip P →
  fs !! name = Some (pickle_dump P (PyList [a; b; c])) →
  a ≠ PyNone →
  run fs = Ok ((a, b, c), fs, FromCache).
Proof.
  intros Hrt Hc Ha. unfold run, grouping_phase, read_grouping_cache.
  cbn [i_grouping_cache]. fold name. rewrite Hc, Hrt.
  cbn [mbind result_bind unpack3]. by destruct a.
Qed.

Lemma grouping_phase_cached_none (fs : gmap string (bytes P)) b c :
  pickle_roundtrip P →
  fs !! name = Some (pickle_dump P (PyList [PyNone; b; c])) →
  run fs = Ok (fresh, <[name := pickle_dump P (PyList [fresh.1.1; fresh.1.2; fresh.2])]> fs,
               Recomputed).
Proof.
  intros Hrt Hc. unfold run, grouping_phase, read_grouping_cache.
  cbn [i_grouping_cache]. fold name. rewrite Hc, Hrt.
  cbn [mbind result_bind unpack3]. fold fresh. by destruct fresh as [[a' b'] c'].
Qed.

(** C3, as amended.  A missing cache file is not fatal: the driver
    recomputes the grouping and writes it to the cache file.  A cache
    file whose content cannot be loaded or unpacked is not handled: the
    exception leaves the driver. *)
Theorem grouping_cache_faults (fs : gmap string (bytes P)) :
  (fs !! name = None →
   run fs = Ok (fresh,
                <[name := pickle_dump P (PyList [fresh.1.1; fresh.1.2; fresh.2])]> fs,
                Recomputed)) ∧
  (∀ content e,
     fs !! name = Some content →
     (o ← pickle_load P content; unpack3 o) = Raise e →
     e ≠ FileNotFoundError →
     run fs = Raise e).
Proof.
  split.
  - apply grouping_phase_absent.
  - apply grouping_phase_unreadable.
Qed.

(** C6.  A run that finds no cache computes the grouping and persists
    it: afterwards the cache file holds the pickled triple.  A second
    run on that store and the same inputs returns the identical triple.
    It reads it back from the cache: as long as the first component is
    not [None], the triple returned is the stored one whatever the
    grouping routine of the second run would compute; a triple whose
    first component is [None] is recomputed instead. *)
Theorem grouping_cache_roundtrip (second_grouper : grouper)
    (fs : gmap string (bytes P)) :
  pickle_roundtrip P →
  fs !! name = None →
  let fs1 := <[name := pickle_dump P (PyList [fresh.1.1; fresh.1.2; fresh.2])]> fs in
  run fs = Ok (fresh, fs1, Recomputed) ∧
  (∃ src, run fs1 = Ok (fresh, fs1, src)) ∧
  (fresh.1.1 ≠ PyNone →
   grouping_phase P second_grouper dems_json_file thalweg_shp_fname thalweg_buffer fs1
   = Ok (fresh, fs1, FromCache)) ∧
  (fresh.1.1 = PyNone → run fs1 = Ok (fresh, fs1, Recomputed)).
Proof.
  intros Hrt Habs fs1.
  assert (∀ g : grouper, fresh.1.1 ≠ PyNone →
            grouping_phase P g dems_json_file thalweg_shp_fname thalweg_buffer fs1
            = Ok (fresh, fs1, FromCache)) as Hload.
  { intros g Hsome. unfold grouping_phase, read_grouping_cache.
    cbn [i_grouping_cache]. fold name. unfold fs1.
    rewrite lookup_insert_eq, Hrt. cbn [mbind result_bind unpack3].
    destruct fresh as [[a b] c]. cbn [fst snd] in *. by destruct a. }
  assert (fresh.1.1 = PyNone → run fs1 = Ok (fresh, fs1, Recomputed)) as Hnone.
  { intros Hnone.
    rewrite (grouping_phase_cached_none _ (fresh.1.2) (fresh.2)); [|done|].
    - unfold fs1. by rewrite insert_insert_eq.
    - unfold fs1. rewrite lookup_insert_eq. by rewrite Hnone. }
  split_and!.
  - by apply grouping_phase_absent.
  - assert (fresh.1.1 = PyNone ∨ fresh.1.1 ≠ PyNone) as [H|H]
      by (destruct (fresh.1.1); [by left|by right..]).
    + exists Recomputed. by apply Hnone.
    + exists FromCache. by apply (Hload find_thalweg_tile).
  - apply Hload.
  - done.
Qed.
End grouping_cache.

Lemma grouping_cache_faults_witness :
  grouping_phase stream_pickle one_group "./dems.json" "thalwegs.shp" 1000 ∅
  = Ok (one_group "./dems.json" "thalwegs.shp" 1000 false i_thalweg_cache,
        <[cache_name "./dems.json" "thalwegs.shp"
          := Pickled (PyList [PyList [PyInt 0]; PyList [PyList [PyStr "a.tif"]];
                              PyList [PyList [PyInt 0]]])]> ∅,
        Recomputed) ∧
  grouping_phase stream_pickle one_group "./dems.json" "thalwegs.shp" 1000
    {[ cache_name "./dems.json" "thalwegs.shp" := Truncated ]}
  = Raise EOFError.
Proof.
  split.
  - apply (proj1 (grouping_cache_faults stream_pickle one_group
                    "./dems.json" "thalwegs.shp" 1000 ∅)).
    reflexivity.
  - apply (proj2 (grouping_cache_faults stream_pickle one_group
                    "./dems.json" "thalwegs.shp" 1000
                    {[ cache_name "./dems.json" "thalwegs.shp" := Truncated ]})
             Truncated EOFError).
    + vm_compute. reflexivity.
    + reflexivity.
    + discriminate.
Defined.

(** C3 as stated: a cache file that was cut short is present but cannot
    be loaded; the driver does not recompute, it stops with [EOFError]. *)
Lemma grouping_cache_corrupt_is_fatal : ¬ cache_fault_tolerant stream_pickle one_group.
Proof.
  intros Htol.
  destruct (Htol "./dems.json" "thalwegs.shp" 1000
              {[ cache_name "./dems.json" "thalwegs.shp" := Truncated ]}) as [fs' Hrun].
  - right. exists Truncated, EOFError. split; [|reflexivity].
    vm_compute. reflexivity.
  - rewrite (grouping_phase_unreadable stream_pickle one_group _ _ _ _ Truncated EOFError)
      in Hrun; [discriminate| |reflexivity|discriminate].
    vm_compute. reflexivity.
Qed.

Lemma grouping_cache_roundtrip_witness :
  let fs1 : gmap string stream :=
    <[cache_name "/a/dems.json" "/a/thalwegs.shp"
      := Pickled (PyList [PyStr "/a/dems.json"; PyStr "/a/thalwegs.shp"; PyInt 1000])]> ∅ in
  grouping_phase stream_pickle echo_grouper "/a/dems.json" "/a/thalwegs.shp" 1000 ∅
  = Ok ((PyStr "/a/dems.json", PyStr "/a/thalwegs.shp", PyInt 1000), fs1, Recomputed) ∧
  (∃ src,
     grouping_phase stream_pickle echo_grouper "/a/dems.json" "/a/thalwegs.shp" 1000 fs1
     = Ok ((PyStr "/a/dems.json", PyStr "/a/thalwegs.shp", PyInt 1000), fs1, src)) ∧
  (PyStr "/a/dems.json" ≠ PyNone →
   grouping_phase stream_pickle one_group "/a/dems.json" "/a/thalwegs.shp" 1000 fs1
   = Ok ((PyStr "/a/dems.json", PyStr "/a/thalwegs.shp", PyInt 1000), fs1, FromCache)) ∧
  (PyStr "/a/dems.json" = PyNone →
   grouping_phase stream_pickle echo_grouper "/a/dems.json" "/a/thalwegs.shp" 1000 fs1
   = Ok ((PyStr "/a/dems.json", PyStr "/a/thalwegs.shp", PyInt 1000), fs1, Recomputed)).
Proof.
  apply (grouping_cache_roundtrip stream_pickle echo_grouper
           "/a/dems.json" "/a/thalwegs.shp" 1000 one_group ∅).
  - intros o. reflexivity.
  - reflexivity.
Defined.

(** ** The DEM pre-caching pass *)

Lemma add_files_elem (group : list (option string)) (unique : list string) (f : string) :
  f ∈ foldl (λ unique file,
               match file with
               | Some f => if decide (f ∈ unique) then unique else unique ++ [f]
               | None => unique
               end) unique group
  ↔ f ∈ unique ∨ Some f ∈ group.
Proof.
  revert unique. induction group as [|file group IH]; intros unique; cbn [foldl].
  - rewrite elem_of_nil. tauto.
  - rewrite IH, elem_of_cons. destruct file as [g|].
    + case_decide as Hg.
      * split; [tauto|]. intros [?|[Heq|?]]; [tauto| |tauto].
        injection Heq as ->. tauto.
      * rewrite elem_of_app, list_elem_of_singleton.
        split; [intros [[? | ->] | ?]; tauto|]. intros [?|[Heq|?]]; [tauto| |tauto].
        injection Heq as ->. tauto.
    + split; [tauto|]. intros [?|[Heq|?]]; [tauto|discriminate|tauto].
Qed.

Lemma add_files_NoDup (group : list (option string)) (unique : list string) :
  NoDup unique →
  NoDup (foldl (λ unique file,
                  match file with
                  | Some f => if decide (f ∈ unique) then unique else unique ++ [f]
                  | None => unique
                  end) unique group).
Proof.
  revert unique. induction group as [|file group IH]; intros unique Hnd; cbn [foldl]; [done|].
  apply IH. destruct file as [g|]; [|done]. case_decide as Hg; [done|].
  apply NoDup_app. split_and!; [done| |apply NoDup_singleton].
  intros x Hx ->%list_elem_of_singleton. done.
Qed.

Lemma unique_tile_files_elem (tile_groups_files : list (list (option string))) (f : string) :
  f ∈ unique_tile_files tile_groups_files
  ↔ ∃ group, group ∈ tile_groups_files ∧ Some f ∈ group.
Proof.
  unfold unique_tile_files.
  assert (∀ unique,
    f ∈ foldl (λ unique group,
                 foldl (λ unique file,
                          match file with
                          | Some f => if decide (f ∈ unique) then unique else unique ++ [f]
                          | None => unique
                          end) unique group) unique tile_groups_files
    ↔ f ∈ unique ∨ ∃ group, group ∈ tile_groups_files ∧ Some f ∈ group) as Hgen.
  { induction tile_groups_files as [|g gs IH]; intros unique; cbn [foldl].
    - split; [tauto|]. intros [?|(g & Hg%elem_of_nil & _)]; tauto.
    - rewrite IH, add_files_elem. setoid_rewrite elem_of_cons. split.
      + intros [[?|?]|(g' & ? & ?)]; eauto.
      + intros [?|(g' & [-> | ?] & ?)]; eauto. }
  rewrite Hgen, elem_of_nil. tauto.
Qed.

Lemma unique_tile_files_NoDup (tile_groups_files : list (list (option string))) :
  NoDup (unique_tile_files tile_groups_files).
Proof.
  unfold unique_tile_files.
  assert (∀ unique, NoDup unique →
    NoDup (foldl (λ unique group,
                    foldl (λ unique file,
                             match file with
                             | Some f => if decide (f ∈ unique) then unique else unique ++ [f]
                             | None => unique
                             end) unique group) unique tile_groups_files)) as Hgen.
  { induction tile_groups_files as [|g gs IH]; intros unique Hnd; cbn [foldl]; [done|].
    by apply IH, add_files_NoDup. }
  apply Hgen, NoDup_nil_2.
Qed.

(** With the validation switch on, the pass cannot complete: the pair
    returned by [my_mpi_idx] is used as one index into a
    one-dimensional array. *)
Lemma dem_cache_pass_validating_raises tile_groups_files size rank :
  ∃ e, dem_cache_pass true true tile_groups_files size rank = Raise e.
Proof.
  unfold dem_cache_pass.
  destruct (my_mpi_idx _ size rank) as [idx|e]; cbn; eauto.
Qed.

Lemma driver_dem_cache_no_call b tile_groups_files size rank :
  driver_dem_cache b tile_groups_files size rank = Ok [].
Proof. by destruct b. Qed.

(** C5, as amended.  With DEM caching enabled every worker builds the
    deduplicated list of needed tile files (no [None], no repetition),
    but the pre-warming loop sits behind [iValidateCache], which the
    driver fixes to [False]: no worker hands any tile file to [Tif2XYZ]
    before group processing. *)
Theorem dem_cache_prewarms_nothing
    (tile_groups_files : list (list (option string))) (size rank : Z) :
  driver_dem_cache true tile_groups_files size rank = Ok [] ∧
  NoDup (unique_tile_files tile_groups_files) ∧
  ∀ f, f ∈ unique_tile_files tile_groups_files
       ↔ ∃ group, group ∈ tile_groups_files ∧ Some f ∈ group.
Proof.
  split; [apply driver_dem_cache_no_call|]. split.
  - apply unique_tile_files_NoDup.
  - apply unique_tile_files_elem.
Qed.

(** C5 as stated: one worker, one group needing one tile; the tile is
    pre-parsed by no worker. *)
Lemma dem_cache_prewarm_missing : ¬ prewarm_exactly_once [[Some "a.tif"]] 1.
Proof.
  intros Hpre.
  destruct (Hpre "a.tif") as (rank & _ & (calls & Hcalls & Hin) & _).
  - vm_compute. left.
  - rewrite driver_dem_cache_no_call in Hcalls. injection Hcalls as <-.
    by apply elem_of_nil in Hin.
Qed.

(** ** Output-name prefixes *)

Lemma no_underscore_uint (d : Decimal.uint) :
  no_underscore (NilEmpty.string_of_uint d).
Proof. induction d; cbn; (split; [discriminate|done]) || done. Qed.

Lemma no_underscore_str_of_Z (z : Z) : no_underscore (str_of_Z z).
Proof.
  unfold str_of_Z. destruct (Z.to_int z) as [d|d]; cbn.
  - destruct d; try apply (no_underscore_uint (_ d)); cbn; by split.
  - split; [discriminate|].
    destruct d; try apply (no_underscore_uint (_ d)); cbn; by split.
Qed.

Lemma to_int_proper (z : Z) :
  Z.to_int z ≠ Decimal.Pos Decimal.Nil ∧ Z.to_int z ≠ Decimal.Neg Decimal.Nil.
Proof.
  destruct z as [|p|p]; cbn; split; try discriminate;
    intros [= H]; by apply DecimalPos.Unsigned.to_uint_nonnil in H.
Qed.

Lemma str_of_Z_inj (x y : Z) : str_of_Z x = str_of_Z y → x = y.
Proof.
  unfold str_of_Z. intros H. apply DecimalZ.to_int_inj.
  destruct (to_int_proper x) as [Hx1 Hx2], (to_int_proper y) as [Hy1 Hy2].
  pose proof (NilZero.isi _ Hx1 Hx2) as Ex.
  pose proof (NilZero.isi _ Hy1 Hy2) as Ey.
  rewrite H in Ex. congruence.
Qed.

Lemma append_cons (c : ascii) (s t : string) : String c s +:+ t = String c (s +:+ t).
Proof. reflexivity. Qed.

Lemma append_nil_l (t : string) : "" +:+ t = t.
Proof. reflexivity. Qed.

Lemma append_assoc (s t u : string) : (s +:+ t) +:+ u = s +:+ (t +:+ u).
Proof.
  induction s as [|c s IH]; [done|]. by rewrite !append_cons, IH.
Qed.

Lemma split_at_underscore (a b s t : string) :
  no_underscore a → no_underscore b →
  a +:+ String "_" s = b +:+ String "_" t → a = b ∧ s = t.
Proof.
  revert b. induction a as [|c a IH]; intros [|d b];
    rewrite ?append_cons, ?append_nil_l; cbn [no_underscore].
  - intros _ _ [= ->]. done.
  - intros _ [Hd _] [= <- _]. done.
  - intros [Hc _] _ [= -> _]. done.
  - intros [_ Ha] [_ Hb] [= -> H]. destruct (IH b Ha Hb H) as [-> ->]. done.
Qed.

Lemma output_prefix_inj_suffix (g r i g' r' i' : Z) (s s' : string) :
  output_prefix g r i +:+ s = output_prefix g' r' i' +:+ s' →
  g = g' ∧ r = r' ∧ i = i' ∧ s = s'.
Proof.
  unfold output_prefix. rewrite !append_assoc, !append_cons, !append_nil_l.
  intros [= H].
  apply split_at_underscore in H as [Hg H]; [|apply no_underscore_str_of_Z..].
  apply split_at_underscore in H as [Hr H]; [|apply no_underscore_str_of_Z..].
  apply split_at_underscore in H as [Hi H]; [|apply no_underscore_str_of_Z..].
  by repeat split; try apply str_of_Z_inj.
Qed.

Example output_prefix_example : output_prefix 7 2 0 = "Group_7_2_0_".
Proof. reflexivity. Qed.

(** ** Selecting a worker's groups with the boolean vector *)

Lemma compress_app {A} (m1 m2 : list bool) (a1 a2 : list A) :
  length m1 = length a1 →
  Np.compress (m1 ++ m2) (a1 ++ a2) = Np.compress m1 a1 ++ Np.compress m2 a2.
Proof.
  revert a1. induction m1 as [|b m1 IH]; intros [|x a1] Hlen; try done.
  cbn in Hlen. cbn [app Np.compress]. rewrite IH by lia. by destruct b.
Qed.

Lemma compress_false {A} (n : nat) (a : list A) :
  Np.compress (replicate n false) a = [].
Proof. revert a. induction n as [|n IH]; intros [|x a]; cbn; auto. Qed.

Lemma compress_true {A} (n : nat) (a : list A) :
  length a = n → Np.compress (replicate n true) a = a.
Proof.
  revert a. induction n as [|n IH]; intros [|x a] Hlen; try done.
  cbn in *. rewrite IH by lia. done.
Qed.

Lemma compress_window {A} (n1 n2 n3 : nat) (a : list A) :
  length a = (n1 + n2 + n3)%nat →
  Np.compress (replicate n1 false ++ replicate n2 true ++ replicate n3 false) a
  = take n2 (drop n1 a).
Proof.
  intros Hlen.
  rewrite <- (take_drop n1 a) at 1.
  rewrite compress_app by (rewrite length_replicate, length_take; lia).
  rewrite compress_false, app_nil_l.
  rewrite <- (take_drop n2 (drop n1 a)) at 1.
  rewrite compress_app by (rewrite length_replicate, length_take, length_drop; lia).
  rewrite compress_false, app_nil_r.
  apply compress_true. rewrite length_take, length_drop. lia.
Qed.

Lemma bool_list_eq (l k : list bool) :
  length l = length k →
  (∀ j, l !! j = Some true ↔ k !! j = Some true) → l = k.
Proof.
  intros Hlen Htrue. apply list_eq. intros j.
  destruct (l !! j) as [b|] eqn:El, (k !! j) as [c|] eqn:Ek.
  - specialize (Htrue j). rewrite El, Ek in Htrue.
    destruct b, c; try done.
    + by destruct (proj1 Htrue eq_refl).
    + by destruct (proj2 Htrue eq_refl).
  - apply lookup_lt_Some in El. apply lookup_ge_None in Ek. lia.
  - apply lookup_ge_None in El. apply lookup_lt_Some in Ek. lia.
  - done.
Qed.

Lemma window_lookup (n1 n2 n3 j : nat) :
  (replicate n1 false ++ replicate n2 true ++ replicate n3 false) !! j = Some true
  ↔ (n1 ≤ j < n1 + n2)%nat.
Proof.
  destruct (decide (j < n1)%nat).
  { rewrite lookup_app_l by (rewrite length_replicate; lia).
    rewrite lookup_replicate. split; [intros [[=] _]|lia]. }
  rewrite lookup_app_r, length_replicate by (rewrite length_replicate; lia).
  destruct (decide (j - n1 < n2)%nat).
  { rewrite lookup_app_l by (rewrite length_replicate; lia).
    rewrite lookup_replicate. split; [lia|]. intros _. split; [done|lia]. }
  rewrite lookup_app_r, length_replicate by (rewrite length_replicate; lia).
  rewrite lookup_replicate. split; [intros [[=] _]|lia].
Qed.

Lemma share_mask_window (N size rank : Z) :
  0 ≤ N → 1 ≤ size → 0 ≤ rank < size →
  share_mask N size rank
  = replicate (Z.to_nat (share_start N size rank)) false
    ++ replicate (Z.to_nat (share_len N size rank)) true
    ++ replicate (Z.to_nat (N - share_start N size rank - share_len N size rank)) false.
Proof.
  intros HN Hs Hr.
  pose proof (share_start_nonneg N size HN Hs rank ltac:(lia)).
  pose proof (share_len_nonneg N size HN Hs rank).
  pose proof (share_end_le N size HN Hs rank Hr).
  apply bool_list_eq.
  - rewrite share_mask_length, !length_app, !length_replicate. lia.
  - intros j. rewrite share_mask_lookup, window_lookup, elem_of_seqZ by done. lia.
Qed.

(** ** The processing loop *)

Lemma my_mpi_idx_Ok_bounds (N size rank : Z) r :
  my_mpi_idx N size rank = Ok r → 0 ≤ N ≤ Np.intp_max.
Proof.
  unfold my_mpi_idx, Np.zeros_bool. case_decide; [done|]. lia.
Qed.

Lemma driver_map_generation_ok (thalweg_shp_fname output_dir : string)
    (tile_groups_files : list (list (option string)))
    (tile_groups2thalwegs : list (list Z)) (size rank : Z) :
  let N := Z.of_nat (length tile_groups_files) in
  let st := Z.to_nat (share_start N size rank) in
  let len := Z.to_nat (share_len N size rank) in
  length tile_groups2thalwegs = length tile_groups_files →
  1 ≤ N ≤ Np.intp_max → 1 ≤ size → 0 ≤ rank < size →
  driver_map_generation thalweg_shp_fname output_dir tile_groups_files
                        tile_groups2thalwegs size rank
  = Ok (process_groups thalweg_shp_fname output_dir rank
          (seqZ (share_start N size rank) (share_len N size rank))
          (take len (drop st tile_groups_files))
          (take len (drop st tile_groups2thalwegs))).
Proof.
  intros N st len Hlen HN Hs Hr. unfold driver_map_generation. fold N.
  rewrite my_mpi_idx_ok by done. cbn [mbind result_bind Np.data].
  pose proof (share_start_nonneg N size ltac:(lia) Hs rank ltac:(lia)).
  pose proof (share_len_nonneg N size ltac:(lia) Hs rank).
  pose proof (share_end_le N size ltac:(lia) Hs rank Hr).
  unfold Np.getitem_mask. rewrite share_mask_length.
  rewrite decide_True by lia. cbn [mbind result_bind].
  rewrite decide_True by lia. cbn [mbind result_bind].
  rewrite share_mask_window by lia.
  rewrite !compress_window by lia. done.
Qed.

Lemma process_groups_lookup (thalweg_shp_fname output_dir : string) (rank : Z)
    (ids : list Z) (tgs : list (list (option string))) (ths : list (list Z))
    (i : nat) g tg th :
  ids !! i = Some g → tgs !! i = Some tg → ths !! i = Some th →
  process_groups thalweg_shp_fname output_dir rank ids tgs ths !! i
  = Some {| tif_fnames := tg;
            call_thalweg_shp_fname := thalweg_shp_fname;
            selected_thalweg := th;
            call_output_dir := output_dir;
            call_output_prefix := output_prefix g rank (Z.of_nat i);
            call_mpi_print_prefix :=
              mpi_print_prefix rank (Z.of_nat i) (Z.of_nat (length tgs)) g |}.
Proof.
  intros Hg Htg Hth. unfold process_groups.
  rewrite list_lookup_imap, !lookup_zip_with, Hg, Htg, Hth. done.
Qed.

Lemma process_groups_length (thalweg_shp_fname output_dir : string) (rank : Z)
    (ids : list Z) (tgs : list (list (option string))) (ths : list (list Z)) :
  length tgs = length ids → length ths = length ids →
  length (process_groups thalweg_shp_fname output_dir rank ids tgs ths) = length ids.
Proof.
  intros H1 H2. unfold process_groups.
  rewrite length_imap, !length_zip_with. lia.
Qed.

(** C8.  Every tile group in a worker's share is processed, whatever its
    tile-file list, the empty list included: the worker invokes the
    external routine once per assigned group, and the invocation for
    group [g] receives exactly the tile files and thalwegs of [g]. *)
Theorem assigned_groups_are_processed (thalweg_shp_fname output_dir : string)
    (tile_groups_files : list (list (option string)))
    (tile_groups2thalwegs : list (list Z)) (size rank : Z)
    (ids : Np.ndarray) (mask : list bool) (g : Z) :
  length tile_groups2thalwegs = length tile_groups_files →
  1 ≤ size → 0 ≤ rank < size →
  my_mpi_idx (Z.of_nat (length tile_groups_files)) size rank = Ok (ids, mask) →
  g ∈ Np.data ids →
  ∃ calls (i : nat) tg th,
    driver_map_generation thalweg_shp_fname output_dir tile_groups_files
                          tile_groups2thalwegs size rank = Ok calls ∧
    length calls = length (Np.data ids) ∧
    tile_groups_files !! Z.to_nat g = Some tg ∧
    tile_groups2thalwegs !! Z.to_nat g = Some th ∧
    calls !! i
    = Some {| tif_fnames := tg;
              call_thalweg_shp_fname := thalweg_shp_fname;
              selected_thalweg := th;
              call_output_dir := output_dir;
              call_output_prefix := output_prefix g rank (Z.of_nat i);
              call_mpi_print_prefix :=
                mpi_print_prefix rank (Z.of_nat i)
                                 (Z.of_nat (length (Np.data ids))) g |}.
Proof.
  intros Hlen Hs Hr Hcall Hg.
  set (N := Z.of_nat (length tile_groups_files)) in *.
  pose proof (my_mpi_idx_Ok_bounds _ _ _ _ Hcall) as Hbound.
  destruct (decide (N = 0)) as [HN0|HN0].
  { rewrite HN0, my_mpi_idx_empty_raises in Hcall by done. discriminate. }
  assert (1 ≤ N ≤ Np.intp_max) as HN by lia.
  rewrite my_mpi_idx_ok in Hcall by done. injection Hcall as <- <-.
  cbn [Np.data] in *.
  pose proof (share_start_nonneg N size ltac:(lia) Hs rank ltac:(lia)) as Hst.
  pose proof (share_len_nonneg N size ltac:(lia) Hs rank) as Hl.
  pose proof (share_end_le N size ltac:(lia) Hs rank Hr) as Hend.
  pose proof Hg as Hg'%elem_of_seqZ.
  set (st := share_start N size rank) in *. set (len := share_len N size rank) in *.
  set (i := Z.to_nat (g - st)).
  destruct (lookup_lt_is_Some_2 tile_groups_files (Z.to_nat g) ltac:(lia)) as [tg Htg].
  destruct (lookup_lt_is_Some_2 tile_groups2thalwegs (Z.to_nat g) ltac:(lia)) as [th Hth].
  assert (Z.to_nat st + i = Z.to_nat g)%nat as Hi by lia.
  assert (Z.of_nat (length tile_groups_files) = N) as HNlen by done.
  eexists _, i, tg, th. split; [by apply driver_map_generation_ok|].
  split_and!; [|done|done|].
  - apply process_groups_length;
      rewrite length_take, length_drop, length_seqZ; fold N; fold st; fold len; lia.
  - fold N. fold st. fold len.
    rewrite (process_groups_lookup _ _ _ _ _ _ i g tg th).
    + do 3 f_equal. rewrite length_take, length_drop, length_seqZ. lia.
    + apply lookup_seqZ. lia.
    + rewrite lookup_take_lt, lookup_drop, Hi by lia. done.
    + rewrite lookup_take_lt, lookup_drop, Hi by lia. done.
Qed.

Lemma assigned_groups_are_processed_witness :
  ∃ calls (i : nat),
    driver_map_generation "thalwegs.shp" "./out" [[]; [Some "a.tif"]; [None]]
                          [[0]; [1]; [2]] 2 0 = Ok calls ∧
    calls !! i
    = Some {| tif_fnames := [];
              call_thalweg_shp_fname := "thalwegs.shp";
              selected_thalweg := [0];
              call_output_dir := "./out";
              call_output_prefix := output_prefix 0 0 (Z.of_nat i);
              call_mpi_print_prefix := mpi_print_prefix 0 (Z.of_nat i) 2 0 |}.
Proof.
  destruct (assigned_groups_are_processed "thalwegs.shp" "./out"
              [[]; [Some "a.tif"]; [None]] [[0]; [1]; [2]] 2 0
              {| Np.dtype_of := Np.int64; Np.data := [0; 1] |}
              [true; true; false] 0)
    as (calls & i & tg & th & Hrun & _ & Htg & Hth & Hcall).
  - reflexivity.
  - lia.
  - lia.
  - vm_compute. reflexivity.
  - left.
  - injection Htg as <-. injection Hth as <-. exists calls, i. split; assumption.
Defined.

(** ** Merging the partial outputs *)

Lemma elem_of_glob {A} (files : gmap string A) (pattern name : string) (a : A) :
  (name, a) ∈ glob files pattern ↔ files !! name = Some a ∧ glob_match pattern name = true.
Proof.
  unfold glob. rewrite list_elem_of_filter, elem_of_map_to_list. cbn. tauto.
Qed.

Lemma glob_nil {A} (files : gmap string A) (pattern : string) :
  glob files pattern = []
  ↔ ∀ name a, files !! name = Some a → glob_match pattern name = false.
Proof.
  split.
  - intros Hnil name a Hin. destruct (glob_match pattern name) eqn:E; [|done].
    assert ((name, a) ∈ glob files pattern) as Hel by by apply elem_of_glob.
    rewrite Hnil in Hel. by apply elem_of_nil in Hel.
  - intros Hno. apply elem_of_nil_inv. intros [name a] [Hin Hm]%elem_of_glob.
    rewrite (Hno name a Hin) in Hm. done.
Qed.

Lemma glob_insert_elem {A} (files : gmap string A) (pattern key name : string) (v a : A) :
  glob_match pattern key = false →
  (name, a) ∈ glob (<[key:=v]> files) pattern ↔ (name, a) ∈ glob files pattern.
Proof.
  intros Hkey. rewrite !elem_of_glob.
  destruct (decide (key = name)) as [->|Hne].
  - rewrite Hkey. split; intros [_ ?]; done.
  - by rewrite lookup_insert_ne.
Qed.

Lemma glob_insert_nil {A} (files : gmap string A) (pattern key : string) (v : A) :
  glob_match pattern key = false →
  glob files pattern = [] → glob (<[key:=v]> files) pattern = [].
Proof.
  intros Hkey Hnil. apply elem_of_nil_inv. intros [name a] Hel.
  apply glob_insert_elem in Hel; [|done]. rewrite Hnil in Hel.
  by apply elem_of_nil in Hel.
Qed.

Lemma reproject_all (target : string) (frames : list shapefile) :
  (∀ s, s ∈ frames → crs s ≠ None) →
  result_map (to_crs target) frames
  = Ok ((λ s, {| crs := Some target; features := features s |}) <$> frames).
Proof.
  intros Hcrs. apply result_map_ok. intros s Hs. unfold to_crs.
  specialize (Hcrs s Hs). by destruct (crs s).
Qed.

Lemma reproject_cases (target : string) (frames : list shapefile) :
  result_map (to_crs target) frames = Raise ValueError ∨
  ∃ frames', result_map (to_crs target) frames = Ok frames' ∧
             length frames' = length frames.
Proof.
  induction frames as [|s frames IH]; cbn [result_map].
  - right. by exists [].
  - assert (to_crs target s = Raise ValueError ∨ ∃ s', to_crs target s = Ok s')
      as [->|[s' ->]] by (unfold to_crs; destruct (crs s); eauto);
      cbn [mbind result_bind]; [by left|].
    destruct IH as [->|(frames' & -> & Hlen)]; cbn [mbind result_bind]; [by left|].
    right. eexists. split; [done|]. cbn. by rewrite Hlen.
Qed.

Lemma merge_shapefiles_empty (d : out_dir) (pattern merged_fname : string) :
  glob (shp_files d) pattern = [] →
  merge_shapefiles d pattern merged_fname = Raise ValueError.
Proof. intros Hnil. unfold merge_shapefiles. by rewrite Hnil. Qed.

Lemma merge_shapefiles_cases (d : out_dir) (pattern merged_fname : string) :
  merge_shapefiles d pattern merged_fname = Raise ValueError ∨
  ∃ total, merge_shapefiles d pattern merged_fname
           = Ok {| map_files := map_files d;
                   shp_files := <[merged_fname := total]> (shp_files d) |}.
Proof.
  unfold merge_shapefiles.
  destruct (reproject_cases "epsg:4326" (glob (shp_files d) pattern).*2)
    as [->|(frames & -> & _)]; cbn [mbind result_bind]; [by left|].
  destruct frames as [|f frames]; cbn [mbind result_bind pd_concat]; [by left|].
  right. by eexists.
Qed.

Lemma merge_shapefiles_ok (d : out_dir) (pattern merged_fname : string) :
  glob (shp_files d) pattern ≠ [] →
  (∀ name s, (name, s) ∈ glob (shp_files d) pattern → crs s ≠ None) →
  ∃ total, merge_shapefiles d pattern merged_fname
           = Ok {| map_files := map_files d;
                   shp_files := <[merged_fname := total]> (shp_files d) |}.
Proof.
  intros Hne Hcrs. unfold merge_shapefiles. rewrite reproject_all.
  - cbn [mbind result_bind].
    destruct (glob (shp_files d) pattern) as [|f fs]; [done|]. by eexists.
  - intros s ([name s'] & -> & Hin)%list_elem_of_fmap. by eapply Hcrs.
Qed.

(** C4, as amended.  A shapefile category without partial files is an
    error: when no file of the output directory matches the pattern of
    the river outlines or of the bomb polygons, [pd.concat] is handed
    the empty list and [merge_outputs] stops with [ValueError]; no
    merged file is written for it. *)
Theorem merge_outputs_needs_shapefiles (d : out_dir) (pattern merged : string) :
  (pattern, merged) ∈ shp_categories →
  glob (shp_files d) pattern = [] →
  merge_outputs d = Raise ValueError.
Proof.
  intros Hcat Hnil. unfold merge_outputs, merge_maps.
  cbn [fst snd map_files shp_files].
  set (maps := <["total_banks_final.map" := _]> _).
  unfold shp_categories in Hcat.
  apply elem_of_cons in Hcat as [[= -> ->]|Hcat].
  { by rewrite merge_shapefiles_empty. }
  apply elem_of_cons in Hcat as [[= -> ->]|Hcat]; [|by apply elem_of_nil in Hcat].
  destruct (merge_shapefiles_cases {| map_files := maps; shp_files := shp_files d |}
              "*river_outline*.shp" "total_river_outline.shp") as [->|[outline ->]];
    [done|].
  cbn [mbind result_bind]. rewrite merge_shapefiles_empty; [done|].
  cbn [shp_files]. by apply glob_insert_nil.
Qed.

Lemma merge_outputs_needs_shapefiles_witness :
  merge_outputs no_outline_dir = Raise ValueError.
Proof.
  apply (merge_outputs_needs_shapefiles no_outline_dir
           "*river_outline*.shp" "total_river_outline.shp").
  - left.
  - vm_compute. reflexivity.
Defined.

(** C4 as stated: a worker produced every artifact but the river
    outline, so no file matches that category; the merge stops with
    [ValueError] instead of writing an empty river-outline file. *)
Lemma merge_outputs_fails_without_outline : ¬ tolerates_empty_categories no_outline_dir.
Proof.
  intros (r & d' & Hrun & _). vm_compute in Hrun. discriminate.
Qed.

(** * Further properties of the driver *)

(** ** [my_mpi_idx] on every input *)

Lemma normalize_index_wrap (len : nat) (i : Z) :
  - Z.of_nat len ≤ i < 0 → normalize_index len i = Ok (Z.to_nat (Z.of_nat len + i)).
Proof.
  intros H. unfold normalize_index.
  rewrite decide_False by lia. by rewrite decide_True by lia.
Qed.

Lemma normalize_index_outside (len : nat) (i : Z) :
  i < - Z.of_nat len ∨ Z.of_nat len ≤ i → normalize_index len i = Raise IndexError.
Proof.
  intros H. unfold normalize_index.
  rewrite decide_False by lia. by rewrite decide_False by lia.
Qed.

Lemma list_getitem_mod {A} (l : list A) (size rank : Z) :
  length l = Z.to_nat size → 1 ≤ size → - size ≤ rank < size →
  list_getitem l rank
  = match l !! Z.to_nat (rank `mod` size) with
    | Some x => Ok x
    | None => Raise IndexError
    end.
Proof.
  intros Hlen Hs Hr. unfold list_getitem.
  destruct (decide (0 ≤ rank)) as [Hpos|Hneg].
  - rewrite normalize_index_in_range by lia. by rewrite Z.mod_small by lia.
  - rewrite normalize_index_wrap by lia.
    replace (rank `mod` size) with (size + rank); [by rewrite Hlen, Z2Nat.id by lia|].
    apply (Z.mod_unique_pos rank size (-1)); lia.
Qed.

Lemma my_mpi_idx_wrapped (N size rank : Z) :
  0 ≤ N ≤ Np.intp_max → 1 ≤ size → - size ≤ rank < size →
  my_mpi_idx N size rank
  = if decide (N = 0) then Raise IndexError
    else Ok ({| Np.dtype_of := Np.int64;
                Np.data := seqZ (share_start N size (rank `mod` size))
                                (share_len N size (rank `mod` size)) |},
             share_mask N size (rank `mod` size)).
Proof.
  intros HN Hs Hr.
  pose proof (Z.mod_pos_bound rank size ltac:(lia)) as Hm.
  unfold my_mpi_idx, Np.zeros_bool.
  rewrite decide_False by lia. cbn [mbind result_bind].
  destruct (array_split_range_lookup N size (Z.to_nat (rank `mod` size)))
    as (groups & -> & Hlen & Hg); [lia..|].
  cbn [mbind result_bind]. rewrite (list_getitem_mod _ size) by done.
  rewrite Hg, Z2Nat.id by lia. cbn [mbind result_bind].
  destruct (decide (N = 0)) as [HN0|HN0].
  - rewrite (decide_False (P := 0 < N)) by lia. done.
  - rewrite (decide_True (P := 0 < N)) by lia.
    rewrite setitem_true_in_range; [done|].
    intros k Hk%elem_of_seqZ. rewrite length_replicate.
    pose proof (share_start_nonneg N size ltac:(lia) Hs (rank `mod` size) ltac:(lia)).
    pose proof (share_end_le N size ltac:(lia) Hs (rank `mod` size) ltac:(lia)). lia.
Qed.

Lemma my_mpi_idx_bad_extent (N size rank : Z) :
  N < 0 ∨ Np.intp_max < N → my_mpi_idx N size rank = Raise ValueError.
Proof.
  intros Hbad. unfold my_mpi_idx, Np.zeros_bool. by rewrite decide_True.
Qed.

Lemma my_mpi_idx_bad_size (N size rank : Z) :
  0 ≤ N ≤ Np.intp_max → size ≤ 0 → my_mpi_idx N size rank = Raise ValueError.
Proof.
  intros HN Hs. unfold my_mpi_idx, Np.zeros_bool.
  rewrite decide_False by lia. cbn [mbind result_bind].
  unfold Np.array_split_range. by rewrite decide_True by lia.
Qed.

Lemma my_mpi_idx_outside (N size rank : Z) :
  0 ≤ N ≤ Np.intp_max → 1 ≤ size → rank < - size ∨ size ≤ rank →
  my_mpi_idx N size rank = Raise IndexError.
Proof.
  intros HN Hs Hout. unfold my_mpi_idx, Np.zeros_bool.
  rewrite decide_False by lia. cbn [mbind result_bind].
  destruct (array_split_range_lookup N size 0) as (groups & -> & Hlen & _); [lia..|].
  cbn [mbind result_bind]. unfold list_getitem.
  rewrite normalize_index_outside by lia. done.
Qed.

Lemma my_mpi_idx_Ok_inv (N size rank : Z) ids mask :
  my_mpi_idx N size rank = Ok (ids, mask) →
  1 ≤ N ≤ Np.intp_max ∧ 1 ≤ size ∧ - size ≤ rank < size ∧
  ids = {| Np.dtype_of := Np.int64;
           Np.data := seqZ (share_start N size (rank `mod` size))
                           (share_len N size (rank `mod` size)) |} ∧
  mask = share_mask N size (rank `mod` size).
Proof.
  intros Hcall.
  destruct (decide (N < 0 ∨ Np.intp_max < N)) as [Hbad|Hgood].
  { by rewrite my_mpi_idx_bad_extent in Hcall. }
  destruct (decide (size ≤ 0)) as [Hsize|Hsize].
  { by rewrite my_mpi_idx_bad_size in Hcall by lia. }
  destruct (decide (rank < - size ∨ size ≤ rank)) as [Hout|Hin].
  { by rewrite my_mpi_idx_outside in Hcall by lia. }
  rewrite my_mpi_idx_wrapped in Hcall by lia.
  destruct (decide (N = 0)); [done|]. injection Hcall as <- <-.
  split_and!; (done || lia).
Qed.

(** C10.  The two values [my_mpi_idx] returns are consistent whenever
    it returns, for every N: the boolean vector has length N and is
    [True] at position j exactly when j is in the index sequence.  At
    the failing input N = 0 there are no two values: for every
    size >= 1 and rank in [0,size) the call raises [IndexError] at
    line 35 instead of returning the empty sequence and the empty
    vector. *)
Theorem my_mpi_idx_pair_consistent_or_missing (N size rank : Z) :
  (∀ ids mask,
     my_mpi_idx N size rank = Ok (ids, mask) →
     length mask = Z.to_nat N ∧
     ∀ j : Z, j ∈ Np.data ids ↔ 0 ≤ j ∧ mask !! Z.to_nat j = Some true) ∧
  (N = 0 → 1 ≤ size → 0 ≤ rank < size →
   my_mpi_idx N size rank = Raise IndexError).
Proof.
  split.
  - intros ids mask (HN & Hs & Hr & -> & ->)%my_mpi_idx_Ok_inv.
    pose proof (Z.mod_pos_bound rank size ltac:(lia)) as Hm.
    split; [apply share_mask_length|]. intros j. cbn [Np.data].
    rewrite share_mask_lookup by lia. split.
    + intros Hj. pose proof Hj as Hj'%elem_of_seqZ.
      pose proof (share_start_nonneg N size ltac:(lia) Hs (rank `mod` size) ltac:(lia)).
      split; [lia|]. by rewrite Z2Nat.id by lia.
    + intros [Hj0 Hj]. by rewrite Z2Nat.id in Hj by lia.
  - intros -> Hs Hr. by apply my_mpi_idx_empty_raises.
Qed.

Lemma my_mpi_idx_pair_consistent_or_missing_witness :
  my_mpi_idx 0 1 0 = Raise IndexError.
Proof.
  apply (proj2 (my_mpi_idx_pair_consistent_or_missing 0 1 0)); [reflexivity|lia|lia].
Defined.



Lemma few_tasks_split (N size rank : Z) :
  1 ≤ N ≤ size → 0 ≤ rank < size →
  share_start N size rank = Z.min rank N ∧
  share_len N size rank = if decide (rank < N) then 1 else 0.
Proof.
  intros HN Hr. unfold share_start, share_len.
  destruct (decide (N = size)) as [->|Hne].
  - rewrite Z.div_same, Z.mod_same by lia.
    rewrite decide_False, decide_True by lia. lia.
  - rewrite Z.div_small, Z.mod_small by lia. split; [lia|].
    repeat case_decide; lia.
Qed.

(** X2.  With at least as many workers as tasks (1 <= N <= size, N an
    extent [np.zeros] accepts), each of the first N ranks gets exactly
    one task, its own rank, and every later rank gets the empty share
    with an all-[False] vector. *)
Theorem my_mpi_idx_few_tasks (N size rank : Z) :
  1 ≤ N ≤ size → N ≤ Np.intp_max → 0 ≤ rank < size →
  my_mpi_idx N size rank
  = Ok ({| Np.dtype_of := Np.int64;
           Np.data := if decide (rank < N) then [rank] else [] |},
        if decide (rank < N)
        then <[Z.to_nat rank := true]> (replicate (Z.to_nat N) false)
        else replicate (Z.to_nat N) false).
Proof.
  intros HN Hmax Hr. rewrite my_mpi_idx_ok by lia. unfold share_mask.
  destruct (few_tasks_split N size rank HN Hr) as [-> ->].
  case_decide.
  - rewrite Z.min_l by lia. rewrite seqZ_cons, seqZ_nil by lia. done.
  - rewrite seqZ_nil by lia. done.
Qed.

Lemma my_mpi_idx_few_tasks_witness :
  my_mpi_idx 2 4 1
  = Ok ({| Np.dtype_of := Np.int64; Np.data := if decide (1 < 2) then [1] else [] |},
        if decide (1 < 2)
        then <[Z.to_nat 1 := true]> (replicate (Z.to_nat 2) false)
        else replicate (Z.to_nat 2) false).
Proof. apply (my_mpi_idx_few_tasks 2 4 1); unfold Np.intp_max; lia. Defined.

(** X3.  Shares follow the rank order: every index held by a lower rank
    is smaller than every index held by a higher rank. *)
Theorem shares_in_rank_order (N size r1 r2 : Z) ids1 mask1 ids2 mask2 (j1 j2 : Z) :
  0 ≤ r1 < r2 → r2 < size →
  my_mpi_idx N size r1 = Ok (ids1, mask1) →
  my_mpi_idx N size r2 = Ok (ids2, mask2) →
  j1 ∈ Np.data ids1 → j2 ∈ Np.data ids2 → j1 < j2.
Proof.
  intros Hr1 Hr2 (HN & Hs & _ & -> & _)%my_mpi_idx_Ok_inv
         (_ & _ & _ & -> & _)%my_mpi_idx_Ok_inv.
  cbn [Np.data]. rewrite !Z.mod_small by lia.
  intros Hj1%share_elem Hj2%share_elem; [|lia..].
  pose proof (share_start_mono N size ltac:(lia) Hs (r1 + 1) r2 ltac:(lia) ltac:(lia)).
  lia.
Qed.

Lemma shares_in_rank_order_witness : 3 < 4.
Proof.
  apply (shares_in_rank_order 10 3 0 1
           {| Np.dtype_of := Np.int64; Np.data := [0; 1; 2; 3] |}
           [true; true; true; true; false; false; false; false; false; false]
           {| Np.dtype_of := Np.int64; Np.data := [4; 5; 6] |}
           [false; false; false; false; true; true; true; false; false; false]).
  - lia.
  - lia.
  - vm_compute. reflexivity.
  - vm_compute. reflexivity.
  - cbn. repeat constructor.
  - cbn. repeat constructor.
Defined.

(** ** The positions of [True] in the returned vector *)

Lemma argwhere_from_false (i : Z) (n : nat) (l : list bool) :
  argwhere_from i (replicate n false ++ l) = argwhere_from (i + Z.of_nat n) l.
Proof.
  revert i. induction n as [|n IH]; intros i.
  - cbn [replicate app]. f_equal. lia.
  - cbn [replicate app argwhere_from]. rewrite IH. f_equal. lia.
Qed.

Lemma argwhere_from_true (i : Z) (n : nat) (l : list bool) :
  argwhere_from i (replicate n true ++ l)
  = seqZ i (Z.of_nat n) ++ argwhere_from (i + Z.of_nat n) l.
Proof.
  revert i. induction n as [|n IH]; intros i.
  - cbn [replicate app]. rewrite seqZ_nil by lia. cbn [app]. f_equal. lia.
  - cbn [replicate app argwhere_from]. rewrite IH, (seqZ_cons i) by lia.
    cbn [app]. f_equal. f_equal; [f_equal; lia|f_equal; lia].
Qed.

Lemma argwhere_share_mask (N size rank : Z) :
  0 ≤ N → 1 ≤ size → 0 ≤ rank < size →
  argwhere (share_mask N size rank)
  = seqZ (share_start N size rank) (share_len N size rank).
Proof.
  intros HN Hs Hr. rewrite share_mask_window by done. unfold argwhere.
  pose proof (share_start_nonneg N size HN Hs rank ltac:(lia)).
  pose proof (share_len_nonneg N size HN Hs rank).
  rewrite argwhere_from_false, argwhere_from_true.
  rewrite <- (app_nil_r (replicate _ false)), argwhere_from_false.
  cbn [argwhere_from]. rewrite app_nil_r. f_equal; lia.
Qed.

(** X4.  The vector and the index sequence returned by [my_mpi_idx]
    name the same groups in the same order: the positions of [True]
    that line 190 prints are exactly the returned indices. *)
Theorem argwhere_is_my_group_ids (N size rank : Z) ids mask :
  my_mpi_idx N size rank = Ok (ids, mask) → argwhere mask = Np.data ids.
Proof.
  intros (HN & Hs & Hr & -> & ->)%my_mpi_idx_Ok_inv. cbn [Np.data].
  pose proof (Z.mod_pos_bound rank size ltac:(lia)).
  apply argwhere_share_mask; lia.
Qed.

Lemma argwhere_is_my_group_ids_witness :
  argwhere [false; false; false; false; true; true; true; false; false; false]
  = [4; 5; 6].
Proof.
  apply (argwhere_is_my_group_ids 10 3 1 {| Np.dtype_of := Np.int64; Np.data := [4; 5; 6] |}).
  vm_compute. reflexivity.
Defined.

(** ** The processing loop, seen from the calls *)

Lemma process_groups_lookup_inv (thalweg_shp_fname output_dir : string) (rank : Z)
    (ids : list Z) (tgs : list (list (option string))) (ths : list (list Z))
    (i : nat) (c : river_map_call) :
  process_groups thalweg_shp_fname output_dir rank ids tgs ths !! i = Some c →
  ∃ g tg th,
    ids !! i = Some g ∧ tgs !! i = Some tg ∧ ths !! i = Some th ∧
    c = {| tif_fnames := tg;
           call_thalweg_shp_fname := thalweg_shp_fname;
           selected_thalweg := th;
           call_output_dir := output_dir;
           call_output_prefix := output_prefix g rank (Z.of_nat i);
           call_mpi_print_prefix :=
             mpi_print_prefix rank (Z.of_nat i) (Z.of_nat (length tgs)) g |}.
Proof.
  unfold process_groups. rewrite list_lookup_imap, !lookup_zip_with.
  destruct (ids !! i) as [g|]; [|done].
  destruct (tgs !! i) as [tg|]; [|done].
  destruct (ths !! i) as [th|]; [|done].
  cbn. intros [= <-]. by exists g, tg, th.
Qed.

Lemma driver_map_generation_mismatch (thalweg_shp_fname output_dir : string)
    (tile_groups_files : list (list (option string)))
    (tile_groups2thalwegs : list (list Z)) (size rank : Z) :
  1 ≤ Z.of_nat (length tile_groups_files) ≤ Np.intp_max →
  1 ≤ size → 0 ≤ rank < size →
  length tile_groups2thalwegs ≠ length tile_groups_files →
  driver_map_generation thalweg_shp_fname output_dir tile_groups_files
                        tile_groups2thalwegs size rank = Raise IndexError.
Proof.
  intros HN Hs Hr Hlen. unfold driver_map_generation.
  rewrite my_mpi_idx_ok by lia. cbn [mbind result_bind].
  unfold Np.getitem_mask. rewrite share_mask_length.
  rewrite (decide_True (P := Z.to_nat _ = length tile_groups_files)) by lia.
  cbn [mbind result_bind].
  rewrite (decide_False (P := Z.to_nat _ = length tile_groups2thalwegs)) by lia. done.
Qed.

Lemma driver_map_generation_Ok_inv (thalweg_shp_fname output_dir : string)
    (tile_groups_files : list (list (option string)))
    (tile_groups2thalwegs : list (list Z)) (size rank : Z) calls :
  let N := Z.of_nat (length tile_groups_files) in
  1 ≤ size → 0 ≤ rank < size →
  driver_map_generation thalweg_shp_fname output_dir tile_groups_files
                        tile_groups2thalwegs size rank = Ok calls →
  1 ≤ N ≤ Np.intp_max ∧ length tile_groups2thalwegs = length tile_groups_files ∧
  calls = process_groups thalweg_shp_fname output_dir rank
            (seqZ (share_start N size rank) (share_len N size rank))
            (take (Z.to_nat (share_len N size rank))
                  (drop (Z.to_nat (share_start N size rank)) tile_groups_files))
            (take (Z.to_nat (share_len N size rank))
                  (drop (Z.to_nat (share_start N size rank)) tile_groups2thalwegs)).
Proof.
  intros N Hs Hr Hrun.
  destruct (decide (Np.intp_max < N)) as [Hbig|Hfit].
  { unfold driver_map_generation in Hrun. fold N in Hrun.
    rewrite my_mpi_idx_bad_extent in Hrun by (by right). done. }
  destruct (decide (N = 0)) as [HN0|HN0].
  { unfold driver_map_generation in Hrun. fold N in Hrun.
    rewrite HN0, my_mpi_idx_empty_raises in Hrun by done. done. }
  destruct (decide (length tile_groups2thalwegs = length tile_groups_files)) as [Hlen|Hlen].
  - rewrite driver_map_generation_ok in Hrun by (done || lia).
    injection Hrun as <-. split_and!; (done || lia).
  - rewrite driver_map_generation_mismatch in Hrun by (done || lia). done.
Qed.

(** X5.  The thalweg lists must come one per tile group: when
    [tile_groups2thalwegs] has fewer entries than [tile_groups_files],
    the boolean vector of line 187 fits the tile groups at line 188 but
    not the thalweg lists, and every worker stops with [IndexError] at
    line 189, before it processes any group. *)
Theorem map_generation_short_thalweg_list (thalweg_shp_fname output_dir : string)
    (tile_groups_files : list (list (option string)))
    (tile_groups2thalwegs : list (list Z)) (size rank : Z) :
  1 ≤ size → 0 ≤ rank < size →
  (length tile_groups2thalwegs < length tile_groups_files)%nat →
  Z.of_nat (length tile_groups_files) ≤ Np.intp_max →
  driver_map_generation thalweg_shp_fname output_dir tile_groups_files
                        tile_groups2thalwegs size rank = Raise IndexError ∧
  ∃ my_tile_groups,
    Np.getitem_mask tile_groups_files
                    (share_mask (Z.of_nat (length tile_groups_files)) size rank)
    = Ok my_tile_groups.
Proof.
  intros Hs Hr Hlen Hmax. split.
  - apply driver_map_generation_mismatch; [lia|done|done|lia].
  - unfold Np.getitem_mask. rewrite share_mask_length.
    rewrite decide_True by lia. by eexists.
Qed.

Lemma map_generation_short_thalweg_list_witness :
  driver_map_generation "thalwegs.shp" "./out" [[Some "a.tif"]; []] [[0]] 2 0
  = Raise IndexError ∧
  ∃ my_tile_groups,
    Np.getitem_mask [[Some "a.tif"]; []]
                    (share_mask (Z.of_nat (length [[Some "a.tif"]; @nil (option string)])) 2 0)
    = Ok my_tile_groups.
Proof.
  apply (map_generation_short_thalweg_list "thalwegs.shp" "./out"
           [[Some "a.tif"]; []] [[0]] 2 0).
  - lia.
  - lia.
  - cbn. lia.
  - vm_compute. discriminate.
Defined.

(** X6.  A worker processes nothing but its own share, and in order: its
    i-th invocation is for the i-th group id returned by [my_mpi_idx],
    receives that group's tile files and thalwegs, and carries that id,
    the rank and the ordinal i in its output prefix. *)
Theorem calls_follow_the_share (thalweg_shp_fname output_dir : string)
    (tile_groups_files : list (list (option string)))
    (tile_groups2thalwegs : list (list Z)) (size rank : Z)
    ids mask calls (i : nat) (c : river_map_call) :
  1 ≤ size → 0 ≤ rank < size →
  my_mpi_idx (Z.of_nat (length tile_groups_files)) size rank = Ok (ids, mask) →
  driver_map_generation thalweg_shp_fname output_dir tile_groups_files
                        tile_groups2thalwegs size rank = Ok calls →
  calls !! i = Some c →
  ∃ g, Np.data ids !! i = Some g ∧
       tile_groups_files !! Z.to_nat g = Some (tif_fnames c) ∧
       tile_groups2thalwegs !! Z.to_nat g = Some (selected_thalweg c) ∧
       call_output_prefix c = output_prefix g rank (Z.of_nat i).
Proof.
  intros Hs Hr Hidx Hrun Hc.
  apply driver_map_generation_Ok_inv in Hrun as (HN & Hlen & ->); [|done..].
  rewrite my_mpi_idx_ok in Hidx by done. injection Hidx as <- <-. cbn [Np.data].
  set (N := Z.of_nat (length tile_groups_files)) in *.
  pose proof (share_start_nonneg N size ltac:(lia) Hs rank ltac:(lia)) as Hst.
  apply process_groups_lookup_inv in Hc as (g & tg & th & Hg & Htg & Hth & ->).
  exists g. cbn [tif_fnames selected_thalweg call_output_prefix].
  pose proof Hg as [-> Hi]%lookup_seqZ.
  apply lookup_take_Some in Htg as [Htg _]. apply lookup_take_Some in Hth as [Hth _].
  rewrite lookup_drop in Htg. rewrite lookup_drop in Hth.
  replace (Z.to_nat (share_start N size rank + Z.of_nat i))
    with (Z.to_nat (share_start N size rank) + i)%nat by lia.
  done.
Qed.

Lemma calls_follow_the_share_witness :
  ∃ g, [0; 1; 2] !! 2%nat = Some g ∧
       [[]; [Some "a.tif"]; [None]] !! Z.to_nat g = Some [None] ∧
       [[0]; [1]; [2]] !! Z.to_nat g = Some [2] ∧
       output_prefix 2 0 2 = output_prefix g 0 (Z.of_nat 2).
Proof.
  apply (calls_follow_the_share "thalwegs.shp" "./out"
           [[]; [Some "a.tif"]; [None]] [[0]; [1]; [2]] 1 0
           {| Np.dtype_of := Np.int64; Np.data := [0; 1; 2] |} [true; true; true]
           (process_groups "thalwegs.shp" "./out" 0 [0; 1; 2]
              [[]; [Some "a.tif"]; [None]] [[0]; [1]; [2]])
           2%nat
           {| tif_fnames := [None];
              call_thalweg_shp_fname := "thalwegs.shp";
              selected_thalweg := [2];
              call_output_dir := "./out";
              call_output_prefix := output_prefix 2 0 2;
              call_mpi_print_prefix := mpi_print_prefix 0 2 3 2 |}).
  - lia.
  - lia.
  - vm_compute. reflexivity.
  - vm_compute. reflexivity.
  - reflexivity.
Defined.

(** ** All workers together *)

Lemma fmap_concat {A B} (f : A → B) (ls : list (list A)) :
  f <$> concat ls = concat ((λ l : list A, f <$> l) <$> ls).
Proof.
  induction ls as [|l ls IH]; [done|]. cbn [concat fmap list_fmap].
  rewrite fmap_app. f_equal. apply IH.
Qed.

Lemma concat_windows {A} (N size : Z) (xs : list A) (k : nat) :
  0 ≤ N → 1 ≤ size →
  concat ((λ r : nat, take (Z.to_nat (share_len N size (Z.of_nat r)))
                           (drop (Z.to_nat (share_start N size (Z.of_nat r))) xs))
            <$> seq 0 k)
  = take (Z.to_nat (share_start N size (Z.of_nat k))) xs.
Proof.
  intros HN Hs. induction k as [|k IH].
  - cbn [seq fmap list_fmap concat]. change (Z.of_nat 0) with 0.
    by rewrite share_start_0 by lia.
  - rewrite seq_S, fmap_app, concat_app, IH. cbn [fmap list_fmap concat Nat.add].
    rewrite app_nil_r, take_take_drop.
    rewrite Nat2Z.inj_succ, <- Z.add_1_r, share_start_succ by lia. f_equal.
    pose proof (share_start_nonneg N size HN Hs (Z.of_nat k) ltac:(lia)).
    pose proof (share_len_nonneg N size HN Hs (Z.of_nat k)). lia.
Qed.

Lemma process_groups_tif_fnames (thalweg_shp_fname output_dir : string) (rank : Z)
    (ids : list Z) (tgs : list (list (option string))) (ths : list (list Z)) :
  length tgs = length ids → length ths = length ids →
  tif_fnames <$> process_groups thalweg_shp_fname output_dir rank ids tgs ths = tgs.
Proof.
  intros H1 H2. apply list_eq. intros i. rewrite list_lookup_fmap.
  destruct (tgs !! i) as [tg|] eqn:Etg.
  - destruct (lookup_lt_is_Some_2 ids i) as [g Hg];
      [apply lookup_lt_Some in Etg; lia|].
    destruct (lookup_lt_is_Some_2 ths i) as [th Hth];
      [apply lookup_lt_Some in Etg; lia|].
    by rewrite (process_groups_lookup _ _ _ _ _ _ i g tg th).
  - rewrite lookup_ge_None_2; [done|].
    rewrite process_groups_length by done. apply lookup_ge_None in Etg. lia.
Qed.

Lemma process_groups_selected (thalweg_shp_fname output_dir : string) (rank : Z)
    (ids : list Z) (tgs : list (list (option string))) (ths : list (list Z)) :
  length tgs = length ids → length ths = length ids →
  selected_thalweg <$> process_groups thalweg_shp_fname output_dir rank ids tgs ths = ths.
Proof.
  intros H1 H2. apply list_eq. intros i. rewrite list_lookup_fmap.
  destruct (ths !! i) as [th|] eqn:Eth.
  - destruct (lookup_lt_is_Some_2 ids i) as [g Hg];
      [apply lookup_lt_Some in Eth; lia|].
    destruct (lookup_lt_is_Some_2 tgs i) as [tg Htg];
      [apply lookup_lt_Some in Eth; lia|].
    by rewrite (process_groups_lookup _ _ _ _ _ _ i g tg th).
  - rewrite lookup_ge_None_2; [done|].
    rewrite process_groups_length by done. apply lookup_ge_None in Eth. lia.
Qed.

(** X7.  Across the workers every tile group is processed exactly once
    and nothing else is: listing the invocations of rank 0, then rank 1,
    and so on, the tile-file lists they receive are the list of all
    groups, in the original order, and so are the thalweg lists.  (The
    number of groups is one an array can have: at most [intp_max].) *)
Theorem every_group_processed_once (thalweg_shp_fname output_dir : string)
    (tile_groups_files : list (list (option string)))
    (tile_groups2thalwegs : list (list Z)) (size : Z) :
  length tile_groups2thalwegs = length tile_groups_files →
  tile_groups_files ≠ [] →
  Z.of_nat (length tile_groups_files) ≤ Np.intp_max → 1 ≤ size →
  ∃ runs : list (list river_map_call),
    length runs = Z.to_nat size ∧
    (∀ r : nat, (r < Z.to_nat size)%nat →
       ∃ calls,
         driver_map_generation thalweg_shp_fname output_dir tile_groups_files
                               tile_groups2thalwegs size (Z.of_nat r) = Ok calls ∧
         runs !! r = Some calls) ∧
    tif_fnames <$> concat runs = tile_groups_files ∧
    selected_thalweg <$> concat runs = tile_groups2thalwegs.
Proof.
  intros Hlen Hne Hmax Hs.
  set (N := Z.of_nat (length tile_groups_files)) in *.
  assert (1 ≤ N) as HN by (destruct tile_groups_files; [done|]; cbn in N; lia).
  set (st := λ r : nat, Z.to_nat (share_start N size (Z.of_nat r))).
  set (len := λ r : nat, Z.to_nat (share_len N size (Z.of_nat r))).
  set (run := λ r : nat,
         process_groups thalweg_shp_fname output_dir (Z.of_nat r)
           (seqZ (share_start N size (Z.of_nat r)) (share_len N size (Z.of_nat r)))
           (take (len r) (drop (st r) tile_groups_files))
           (take (len r) (drop (st r) tile_groups2thalwegs))).
  assert (Hwin : ∀ r : nat, (r < Z.to_nat size)%nat →
            (len r ≤ length tile_groups_files - st r)%nat).
  { intros r Hr. unfold len, st.
    pose proof (share_start_nonneg N size ltac:(lia) Hs (Z.of_nat r) ltac:(lia)).
    pose proof (share_end_le N size ltac:(lia) Hs (Z.of_nat r) ltac:(lia)). lia. }
  assert (Hall : ∀ {A} (xs : list A), length xs = length tile_groups_files →
            concat ((λ r : nat, take (len r) (drop (st r) xs)) <$> seq 0 (Z.to_nat size))
            = xs).
  { intros A xs Hxs. unfold len, st. rewrite concat_windows by lia.
    rewrite Z2Nat.id, share_start_size by lia. apply take_ge. lia. }
  exists (run <$> seq 0 (Z.to_nat size)). split_and!.
  - by rewrite length_fmap, length_seq.
  - intros r Hr. exists (run r). split.
    + apply driver_map_generation_ok; (done || lia).
    + rewrite list_lookup_fmap, lookup_seq_lt by done. done.
  - rewrite fmap_concat, <- list_fmap_compose.
    etransitivity; [|apply (Hall _ tile_groups_files eq_refl)].
    f_equal. apply list_fmap_ext.
    intros i r [-> Hr]%lookup_seq. cbn [compose]. unfold run.
    specialize (Hwin (0 + i)%nat Hr).
    apply process_groups_tif_fnames;
      rewrite length_take, length_drop, length_seqZ; fold (len (0 + i)%nat); lia.
  - rewrite fmap_concat, <- list_fmap_compose.
    etransitivity; [|apply (Hall _ tile_groups2thalwegs Hlen)].
    f_equal. apply list_fmap_ext.
    intros i r [-> Hr]%lookup_seq. cbn [compose]. unfold run.
    specialize (Hwin (0 + i)%nat Hr).
    apply process_groups_selected;
      rewrite length_take, length_drop, length_seqZ; fold (len (0 + i)%nat); lia.
Qed.

Lemma every_group_processed_once_witness :
  ∃ runs : list (list river_map_call),
    length runs = Z.to_nat 2 ∧
    (∀ r : nat, (r < Z.to_nat 2)%nat →
       ∃ calls,
         driver_map_generation "thalwegs.shp" "./out" [[]; [Some "a.tif"]; [None]]
                               [[0]; [1]; [2]] 2 (Z.of_nat r) = Ok calls ∧
         runs !! r = Some calls) ∧
    tif_fnames <$> concat runs = [[]; [Some "a.tif"]; [None]] ∧
    selected_thalweg <$> concat runs = [[0]; [1]; [2]].
Proof.
  apply (every_group_processed_once "thalwegs.shp" "./out"
           [[]; [Some "a.tif"]; [None]] [[0]; [1]; [2]] 2).
  - reflexivity.
  - discriminate.
  - vm_compute. discriminate.
  - lia.
Defined.

Lemma driver_call_prefix (thalweg_shp_fname output_dir : string)
    (tile_groups_files : list (list (option string)))
    (tile_groups2thalwegs : list (list Z)) (size rank : Z)
    calls (i : nat) (c : river_map_call) :
  driver_map_generation thalweg_shp_fname output_dir tile_groups_files
                        tile_groups2thalwegs size rank = Ok calls →
  calls !! i = Some c →
  ∃ g, call_output_prefix c = output_prefix g rank (Z.of_nat i).
Proof.
  unfold driver_map_generation.
  destruct (my_mpi_idx _ size rank) as [[ids mask]|e]; [|done].
  cbn [mbind result_bind].
  destruct (Np.getitem_mask tile_groups_files mask) as [tgs|e]; [|done].
  cbn [mbind result_bind].
  destruct (Np.getitem_mask tile_groups2thalwegs mask) as [ths|e]; [|done].
  cbn [mbind result_bind]. intros [= <-] Hc.
  apply process_groups_lookup_inv in Hc as (g & tg & th & _ & _ & _ & ->).
  by exists g.
Qed.

(** X8.  In one run no two invocations share an output prefix, whichever
    workers issue them: two calls with the same prefix are the same
    call of the same rank. *)
Theorem driver_prefixes_distinct (thalweg_shp_fname output_dir : string)
    (tile_groups_files : list (list (option string)))
    (tile_groups2thalwegs : list (list Z)) (size r1 r2 : Z)
    calls1 calls2 (i1 i2 : nat) (c1 c2 : river_map_call) :
  driver_map_generation thalweg_shp_fname output_dir tile_groups_files
                        tile_groups2thalwegs size r1 = Ok calls1 →
  driver_map_generation thalweg_shp_fname output_dir tile_groups_files
                        tile_groups2thalwegs size r2 = Ok calls2 →
  calls1 !! i1 = Some c1 → calls2 !! i2 = Some c2 →
  call_output_prefix c1 = call_output_prefix c2 →
  r1 = r2 ∧ i1 = i2.
Proof.
  intros Hrun1 Hrun2 Hc1 Hc2 Heq.
  destruct (driver_call_prefix _ _ _ _ _ _ _ _ _ Hrun1 Hc1) as [g1 Hp1].
  destruct (driver_call_prefix _ _ _ _ _ _ _ _ _ Hrun2 Hc2) as [g2 Hp2].
  rewrite Hp1, Hp2 in Heq.
  assert (output_prefix g1 r1 (Z.of_nat i1) +:+ ""
          = output_prefix g2 r2 (Z.of_nat i2) +:+ "") as Hsuf by by rewrite Heq.
  apply output_prefix_inj_suffix in Hsuf as (_ & -> & Hi & _).
  split; [done|lia].
Qed.

Lemma driver_prefixes_distinct_witness : 0 = 0 ∧ 1%nat = 1%nat.
Proof.
  apply (driver_prefixes_distinct "thalwegs.shp" "./out"
           [[]; [Some "a.tif"]; [None]] [[0]; [1]; [2]] 2 0 0
           (process_groups "thalwegs.shp" "./out" 0 [0; 1] [[]; [Some "a.tif"]] [[0]; [1]])
           (process_groups "thalwegs.shp" "./out" 0 [0; 1] [[]; [Some "a.tif"]] [[0]; [1]])
           1 1
           {| tif_fnames := [Some "a.tif"];
              call_thalweg_shp_fname := "thalwegs.shp";
              selected_thalweg := [1];
              call_output_dir := "./out";
              call_output_prefix := output_prefix 1 0 1;
              call_mpi_print_prefix := mpi_print_prefix 0 1 2 1 |}
           {| tif_fnames := [Some "a.tif"];
              call_thalweg_shp_fname := "thalwegs.shp";
              selected_thalweg := [1];
              call_output_dir := "./out";
              call_output_prefix := output_prefix 1 0 1;
              call_mpi_print_prefix := mpi_print_prefix 0 1 2 1 |}).
  - vm_compute. reflexivity.
  - vm_compute. reflexivity.
  - reflexivity.
  - reflexivity.
  - reflexivity.
Defined.

(** C7.  Any two distinct invocations of a run, on the same worker or
    on different ones, pass different output-name prefixes to the
    external routine: each prefix is [Group_{id}_{rank}_{i}_] for the
    rank and the ordinal of its call, the prefixes of two calls that
    differ in rank or ordinal differ, and so do any two file names that
    start with them. *)
Theorem invocation_prefixes_distinct (thalweg_shp_fname output_dir : string)
    (tile_groups_files : list (list (option string)))
    (tile_groups2thalwegs : list (list Z)) (size r1 r2 : Z)
    calls1 calls2 (i1 i2 : nat) (c1 c2 : river_map_call) :
  driver_map_generation thalweg_shp_fname output_dir tile_groups_files
                        tile_groups2thalwegs size r1 = Ok calls1 →
  driver_map_generation thalweg_shp_fname output_dir tile_groups_files
                        tile_groups2thalwegs size r2 = Ok calls2 →
  calls1 !! i1 = Some c1 → calls2 !! i2 = Some c2 →
  (r1, i1) ≠ (r2, i2) →
  (∃ g1 g2, call_output_prefix c1 = output_prefix g1 r1 (Z.of_nat i1) ∧
            call_output_prefix c2 = output_prefix g2 r2 (Z.of_nat i2)) ∧
  call_output_prefix c1 ≠ call_output_prefix c2 ∧
  ∀ s s', call_output_prefix c1 +:+ s ≠ call_output_prefix c2 +:+ s'.
Proof.
  intros Hrun1 Hrun2 Hc1 Hc2 Hne.
  destruct (driver_call_prefix _ _ _ _ _ _ _ _ _ Hrun1 Hc1) as [g1 Hp1].
  destruct (driver_call_prefix _ _ _ _ _ _ _ _ _ Hrun2 Hc2) as [g2 Hp2].
  assert (∀ s s', call_output_prefix c1 +:+ s ≠ call_output_prefix c2 +:+ s') as Hsuf.
  { intros s s'. rewrite Hp1, Hp2.
    intros (_ & -> & Hi & _)%output_prefix_inj_suffix.
    apply Hne. f_equal. lia. }
  split_and!.
  - by exists g1, g2.
  - intros Heq. apply (Hsuf "" ""). by rewrite Heq.
  - done.
Qed.

Lemma invocation_prefixes_distinct_witness :
  (∃ g1 g2, output_prefix 1 0 1 = output_prefix g1 0 (Z.of_nat 1) ∧
            output_prefix 2 1 0 = output_prefix g2 1 (Z.of_nat 0)) ∧
  output_prefix 1 0 1 ≠ output_prefix 2 1 0 ∧
  ∀ s s', output_prefix 1 0 1 +:+ s ≠ output_prefix 2 1 0 +:+ s'.
Proof.
  apply (invocation_prefixes_distinct "thalwegs.shp" "./out"
           [[]; [Some "a.tif"]; [None]] [[0]; [1]; [2]] 2 0 1
           (process_groups "thalwegs.shp" "./out" 0 [0; 1] [[]; [Some "a.tif"]] [[0]; [1]])
           (process_groups "thalwegs.shp" "./out" 1 [2] [[None]] [[2]])
           1 0
           {| tif_fnames := [Some "a.tif"];
              call_thalweg_shp_fname := "thalwegs.shp";
              selected_thalweg := [1];
              call_output_dir := "./out";
              call_output_prefix := output_prefix 1 0 1;
              call_mpi_print_prefix := mpi_print_prefix 0 1 2 1 |}
           {| tif_fnames := [None];
              call_thalweg_shp_fname := "thalwegs.shp";
              selected_thalweg := [2];
              call_output_dir := "./out";
              call_output_prefix := output_prefix 2 1 0;
              call_mpi_print_prefix := mpi_print_prefix 1 0 1 2 |}).
  - vm_compute. reflexivity.
  - vm_compute. reflexivity.
  - reflexivity.
  - reflexivity.
  - discriminate.
Defined.

(** ** The grouping cache from any store *)

Section grouping_cache_store.
Context (P : pickle_lib) (find_thalweg_tile : grouper).
Context (dems_json_file thalweg_shp_fname : string) (thalweg_buffer : Z).

Let name := cache_name dems_json_file thalweg_shp_fname.
Let fresh :=
  find_thalweg_tile dems_json_file thalweg_shp_fname thalweg_buffer false i_thalweg_cache.
Let run := grouping_phase P find_thalweg_tile dems_json_file thalweg_shp_fname
                          thalweg_buffer.
Let stored := pickle_dump P (PyList [fresh.1.1; fresh.1.2; fresh.2]).

Lemma grouping_phase_Ok_inv (fs fs1 : gmap string (bytes P)) g o :
  run fs = Ok (g, fs1, o) →
  (o = FromCache ∧ fs1 = fs ∧ g.1.1 ≠ PyNone ∧
   ∃ content, fs !! name = Some content ∧
              (obj ← pickle_load P content; unpack3 obj) = Ok g) ∨
  (o = Recomputed ∧ g = fresh ∧ fs1 = <[name := stored]> fs).
Proof.
  unfold run, grouping_phase, read_grouping_cache. cbn [i_grouping_cache].
  fold name fresh.
  destruct (fs !! name) as [content|] eqn:Ec.
  - destruct (obj ← pickle_load P content; unpack3 obj) as [[[a b] c]|e] eqn:Eload.
    + cbn [mbind result_bind].
      destruct a; try (intros [= <- <- <-]; left; split_and!; by eauto).
      destruct fresh as [[a' b'] c'] eqn:Ef. intros [= <- <- <-]. by right.
    + destruct e; try done. cbn [mbind result_bind].
      destruct fresh as [[a' b'] c'] eqn:Ef. intros [= <- <- <-]. by right.
  - cbn [mbind result_bind].
    destruct fresh as [[a' b'] c'] eqn:Ef. intros [= <- <- <-]. by right.
Qed.

Lemma grouping_phase_after_recompute (fs : gmap string (bytes P)) :
  pickle_roundtrip P →
  ∃ o, run (<[name := stored]> fs) = Ok (fresh, <[name := stored]> fs, o).
Proof.
  intros Hrt.
  assert (fresh.1.1 = PyNone ∨ fresh.1.1 ≠ PyNone) as [Hnone|Hsome]
    by (destruct (fresh.1.1); [by left|by right..]).
  - exists Recomputed.
    unfold run. rewrite (grouping_phase_cached_none _ _ _ _ _ _ (fresh.1.2) (fresh.2)).
    + by rewrite insert_insert_eq.
    + done.
    + fold name. rewrite lookup_insert_eq. unfold stored. by rewrite Hnone.
  - exists FromCache.
    unfold run.
    rewrite (grouping_phase_cached _ _ _ _ _ _ (fresh.1.1) (fresh.1.2) (fresh.2)).
    + by destruct fresh as [[a b] c].
    + done.
    + fold name. by rewrite lookup_insert_eq.
    + done.
Qed.

(** X9.  A grouping phase that succeeds can be repeated: whatever the
    cache directory held before, a second phase on the same inputs
    returns the same grouping and leaves the cache files as the first
    one left them. *)
Theorem grouping_phase_idempotent (fs fs1 : gmap string (bytes P)) g o :
  pickle_roundtrip P →
  run fs = Ok (g, fs1, o) →
  ∃ o', run fs1 = Ok (g, fs1, o').
Proof.
  intros Hrt Hrun.
  destruct (grouping_phase_Ok_inv _ _ _ _ Hrun) as [(-> & -> & _)|(-> & -> & ->)].
  - by exists FromCache.
  - by apply grouping_phase_after_recompute.
Qed.

End grouping_cache_store.

Lemma grouping_phase_idempotent_witness :
  ∃ o', grouping_phase stream_pickle one_group "./dems.json" "thalwegs.shp" 1000 warm_cache
        = Ok ((PyInt 7, PyNone, PyNone), warm_cache, o').
Proof.
  apply (grouping_phase_idempotent stream_pickle one_group "./dems.json" "thalwegs.shp"
           1000 warm_cache warm_cache (PyInt 7, PyNone, PyNone) FromCache).
  - intros obj. reflexivity.
  - vm_compute. reflexivity.
Defined.

(** ** The name of the cache file *)

Lemma has_slash_app_slash (d f : string) : has_slash (d +:+ String "/" f) = true.
Proof.
  induction d as [|c d IH]; rewrite ?append_cons, ?append_nil_l; cbn [has_slash].
  - by rewrite decide_True.
  - by destruct (decide (c = "/"%char)).
Qed.

Lemma basename_join (d f : string) :
  has_slash f = false → basename (d +:+ String "/" f) = f.
Proof.
  intros Hf. induction d as [|c d IH]; rewrite ?append_cons, ?append_nil_l;
    cbn [basename].
  - rewrite Hf. by rewrite decide_True.
  - by rewrite has_slash_app_slash.
Qed.

Lemma basename_plain (f : string) : has_slash f = false → basename f = f.
Proof.
  destruct f as [|c f]; [done|]. cbn [has_slash basename].
  destruct (decide (c = "/"%char)); [done|]. by intros ->.
Qed.

(** X11.  The cache file is named after the two file names alone: for a
    DEM manifest [dir1/dems] and a thalweg file [dir2/thalwegs] it is
    [./Cache/dems_thalwegs_grouping.cache], whatever the directories. *)
Theorem cache_name_of_paths (dir1 dems dir2 thalwegs : string) :
  has_slash dems = false → has_slash thalwegs = false →
  cache_name (dir1 +:+ "/" +:+ dems) (dir2 +:+ "/" +:+ thalwegs)
  = "./Cache/" +:+ dems +:+ "_" +:+ thalwegs +:+ "_grouping.cache" ∧
  cache_name dems thalwegs
  = "./Cache/" +:+ dems +:+ "_" +:+ thalwegs +:+ "_grouping.cache".
Proof.
  intros Hd Ht. unfold cache_name, cache_folder.
  change ("/" +:+ dems) with (String "/" dems).
  change ("/" +:+ thalwegs) with (String "/" thalwegs).
  by rewrite !basename_join, !basename_plain.
Qed.

Lemma cache_name_of_paths_witness :
  cache_name ("/data/run1" +:+ "/" +:+ "dems.json") ("." +:+ "/" +:+ "thalwegs.shp")
  = "./Cache/" +:+ "dems.json" +:+ "_" +:+ "thalwegs.shp" +:+ "_grouping.cache" ∧
  cache_name "dems.json" "thalwegs.shp"
  = "./Cache/" +:+ "dems.json" +:+ "_" +:+ "thalwegs.shp" +:+ "_grouping.cache".
Proof. apply cache_name_of_paths; reflexivity. Defined.

Lemma cache_name_basenames (d1 t1 d2 t2 : string) :
  basename d1 = basename d2 → basename t1 = basename t2 →
  cache_name d1 t1 = cache_name d2 t2.
Proof. intros Hd Ht. unfold cache_name. by rewrite Hd, Ht. Qed.

(** X12.  The cache does not look at the directories of its inputs nor
    at the buffer: once a run has cached its grouping, a run on other
    files with the same two file names, or with another thalweg buffer,
    gets the first run's grouping from the cache and computes nothing. *)
Theorem grouping_cache_ignores_dirs_and_buffer (P : pickle_lib)
    (find_thalweg_tile : grouper) (dems1 thalwegs1 dems2 thalwegs2 : string)
    (buffer1 buffer2 : Z) (fs : gmap string (bytes P)) :
  pickle_roundtrip P →
  basename dems1 = basename dems2 → basename thalwegs1 = basename thalwegs2 →
  fs !! cache_name dems1 thalwegs1 = None →
  (find_thalweg_tile dems1 thalwegs1 buffer1 false i_thalweg_cache).1.1 ≠ PyNone →
  ∃ fs1,
    grouping_phase P find_thalweg_tile dems1 thalwegs1 buffer1 fs
    = Ok (find_thalweg_tile dems1 thalwegs1 buffer1 false i_thalweg_cache,
          fs1, Recomputed) ∧
    grouping_phase P find_thalweg_tile dems2 thalwegs2 buffer2 fs1
    = Ok (find_thalweg_tile dems1 thalwegs1 buffer1 false i_thalweg_cache,
          fs1, FromCache).
Proof.
  intros Hrt Hd Ht Habs Hsome.
  eexists. split; [by apply grouping_phase_absent|].
  set (fresh := find_thalweg_tile dems1 thalwegs1 buffer1 false i_thalweg_cache) in *.
  rewrite (grouping_phase_cached _ _ _ _ _ _ (fresh.1.1) (fresh.1.2) (fresh.2)).
  - by destruct fresh as [[a b] c].
  - done.
  - rewrite <- (cache_name_basenames dems1 thalwegs1) by done.
    by rewrite lookup_insert_eq.
  - done.
Qed.

Lemma grouping_cache_ignores_dirs_and_buffer_witness :
  ∃ fs1,
    grouping_phase stream_pickle echo_grouper "/a/dems.json" "/a/thalwegs.shp" 1000 ∅
    = Ok (echo_grouper "/a/dems.json" "/a/thalwegs.shp" 1000 false i_thalweg_cache,
          fs1, Recomputed) ∧
    grouping_phase stream_pickle echo_grouper "/b/dems.json" "/b/thalwegs.shp" 50 fs1
    = Ok (echo_grouper "/a/dems.json" "/a/thalwegs.shp" 1000 false i_thalweg_cache,
          fs1, FromCache).
Proof.
  apply (grouping_cache_ignores_dirs_and_buffer stream_pickle echo_grouper
           "/a/dems.json" "/a/thalwegs.shp" "/b/dems.json" "/b/thalwegs.shp" 1000 50 ∅).
  - intros obj. reflexivity.
  - reflexivity.
  - reflexivity.
  - reflexivity.
  - discriminate.
Defined.

(** ** The list of tile files to cache *)

Lemma add_files_extends (group : list (option string)) (unique : list string) :
  ∃ more,
    foldl (λ unique file,
             match file with
             | Some f => if decide (f ∈ unique) then unique else unique ++ [f]
             | None => unique
             end) unique group
    = unique ++ more.
Proof.
  revert unique. induction group as [|file group IH]; intros unique; cbn [foldl].
  - exists []. by rewrite app_nil_r.
  - destruct file as [f|]; [|apply IH]. case_decide; [apply IH|].
    destruct (IH (unique ++ [f])) as [more ->].
    exists (f :: more). by rewrite <- app_assoc.
Qed.

(** X13.  Tile files are listed in order of first occurrence: taking
    further groups into account only appends to the list, it never
    removes or moves a file that is already there. *)
Theorem unique_tile_files_grows (groups more_groups : list (list (option string))) :
  ∃ more,
    unique_tile_files (groups ++ more_groups) = unique_tile_files groups ++ more.
Proof.
  unfold unique_tile_files. rewrite foldl_app.
  generalize (foldl (λ unique group,
                       foldl (λ unique file,
                                match file with
                                | Some f => if decide (f ∈ unique) then unique
                                            else unique ++ [f]
                                | None => unique
                                end) unique group) [] groups).
  induction more_groups as [|g gs IH]; intros unique; cbn [foldl].
  - exists []. by rewrite app_nil_r.
  - destruct (add_files_extends g unique) as [m1 ->].
    destruct (IH (unique ++ m1)) as [m2 ->].
    exists (m1 ++ m2). by rewrite app_assoc.
Qed.

(** ** What a successful merge of shapefiles holds *)

Lemma reproject_Ok_inv (target : string) (l frames : list shapefile) :
  result_map (to_crs target) l = Ok frames →
  frames = (λ s, {| crs := Some target; features := features s |}) <$> l ∧
  ∀ s, s ∈ l → crs s ≠ None.
Proof.
  revert frames. induction l as [|s l IH]; intros frames; cbn [result_map].
  - intros [= <-]. split; [done|]. by intros s Hs%elem_of_nil.
  - destruct (to_crs target s) as [s1|e] eqn:Es; [|done].
    unfold to_crs in Es. destruct (crs s) as [c|] eqn:Ec; [|done].
    injection Es as <-. cbn [mbind result_bind].
    destruct (result_map (to_crs target) l) as [frames'|e]; [|done].
    cbn [mbind result_bind]. intros [= <-].
    destruct (IH frames' eq_refl) as [-> Hcrs]. split; [done|].
    intros s' [->|Hs']%elem_of_cons; [by rewrite Ec|by apply Hcrs].
Qed.

Lemma merge_shapefiles_Ok_inv (d d' : out_dir) (pattern merged_fname : string) :
  merge_shapefiles d pattern merged_fname = Ok d' →
  glob (shp_files d) pattern ≠ [] ∧
  (∀ name s, (name, s) ∈ glob (shp_files d) pattern → crs s ≠ None) ∧
  d' = {| map_files := map_files d;
          shp_files :=
            <[merged_fname :=
                {| crs := Some "epsg:4326";
                   features := concat (features <$> (glob (shp_files d) pattern).*2) |}]>
              (shp_files d) |}.
Proof.
  unfold merge_shapefiles.
  destruct (result_map _ _) as [frames|e] eqn:Er; [|done].
  apply reproject_Ok_inv in Er as [-> Hcrs]. cbn [mbind result_bind].
  destruct (glob (shp_files d) pattern) as [|[n s] l] eqn:Eg; [done|].
  cbn [fmap list_fmap pd_concat mbind result_bind crs]. intros [= <-].
  split; [done|]. split.
  - intros name s' Hin. apply Hcrs. apply list_elem_of_fmap. by exists (name, s').
  - do 3 f_equal. cbn [snd features concat]. f_equal.
    rewrite <- !list_fmap_compose. done.
Qed.

Lemma length_concat_features (l : list shapefile) :
  length (concat (features <$> l)) = sum_list ((λ s, length (features s)) <$> l).
Proof.
  induction l as [|s l IH]; [done|].
  cbn [fmap list_fmap concat sum_list sum_list_with]. rewrite length_app, IH. done.
Qed.

(** X14.  When the merge of one shapefile category succeeds, at least
    one partial file matched and all matching files declare a coordinate
    reference; the merged file is in EPSG:4326, holds the features of
    the matching files one after the other, so as many features as they
    hold together, and no other file is touched. *)
Theorem merge_shapefiles_result (d d' : out_dir) (pattern merged_fname : string) :
  merge_shapefiles d pattern merged_fname = Ok d' →
  glob (shp_files d) pattern ≠ [] ∧
  (∀ name s, (name, s) ∈ glob (shp_files d) pattern → crs s ≠ None) ∧
  map_files d' = map_files d ∧
  (∀ other, other ≠ merged_fname → shp_files d' !! other = shp_files d !! other) ∧
  ∃ total,
    shp_files d' !! merged_fname = Some total ∧
    crs total = Some "epsg:4326" ∧
    features total = concat (features <$> (glob (shp_files d) pattern).*2) ∧
    length (features total)
    = sum_list ((λ s, length (features s)) <$> (glob (shp_files d) pattern).*2).
Proof.
  intros (Hne & Hcrs & ->)%merge_shapefiles_Ok_inv. cbn [map_files shp_files].
  split_and!; [done|done|done| |].
  - intros other Hother. by rewrite lookup_insert_ne.
  - eexists. rewrite lookup_insert_eq. split_and!; [done|done|done|].
    cbn [features]. apply length_concat_features.
Qed.

Lemma features_of_glob (files : gmap string shapefile) (pattern : string) (x : Z) :
  x ∈ concat (features <$> (glob files pattern).*2)
  ↔ ∃ name s, files !! name = Some s ∧ glob_match pattern name = true ∧ x ∈ features s.
Proof.
  rewrite list_elem_of_In, in_concat. split.
  - intros (l & Hl & Hx). apply list_elem_of_In, list_elem_of_fmap in Hl as (s & -> & Hs).
    apply list_elem_of_fmap in Hs as ([name s'] & -> & Hin).
    apply elem_of_glob in Hin as [Hlook Hm]. exists name, s'.
    by rewrite list_elem_of_In.
  - intros (name & s & Hlook & Hm & Hx). exists (features s).
    split; [|by apply list_elem_of_In].
    apply list_elem_of_In, list_elem_of_fmap. exists s. split; [done|].
    apply list_elem_of_fmap. exists (name, s). split; [done|]. by apply elem_of_glob.
Qed.

(** X15.  After a successful [merge_outputs] the two merged shapefiles
    exist, both in EPSG:4326; [total_river_outline.shp] holds exactly
    the features of the files of the output directory that match
    [*river_outline*.shp] and [total_bomb_polygons.shp] exactly those of
    the files that match [*bomb*.shp]; every other shapefile is as it
    was before the merge. *)
Theorem merge_outputs_shapefiles (d d' : out_dir) r :
  merge_outputs d = Ok (r, d') →
  ∃ outline bomb,
    shp_files d' !! "total_river_outline.shp" = Some outline ∧
    shp_files d' !! "total_bomb_polygons.shp" = Some bomb ∧
    crs outline = Some "epsg:4326" ∧ crs bomb = Some "epsg:4326" ∧
    (∀ x, x ∈ features outline
          ↔ ∃ name s, shp_files d !! name = Some s ∧
                      glob_match "*river_outline*.shp" name = true ∧ x ∈ features s) ∧
    (∀ x, x ∈ features bomb
          ↔ ∃ name s, shp_files d !! name = Some s ∧
                      glob_match "*bomb*.shp" name = true ∧ x ∈ features s) ∧
    (∀ other, other ≠ "total_river_outline.shp" → other ≠ "total_bomb_polygons.shp" →
              shp_files d' !! other = shp_files d !! other).
Proof.
  unfold merge_outputs, merge_maps. cbn [fst snd map_files shp_files].
  set (maps := <["total_banks_final.map" := _]> _).
  destruct (merge_shapefiles _ "*river_outline*.shp" _) as [d6|e] eqn:E6; [|done].
  cbn [mbind result_bind].
  destruct (merge_shapefiles d6 "*bomb*.shp" _) as [d7|e] eqn:E7; [|done].
  cbn [mbind result_bind]. intros [= <- <-].
  apply merge_shapefiles_Ok_inv in E6 as (_ & _ & ->).
  apply merge_shapefiles_Ok_inv in E7 as (_ & _ & ->).
  cbn [map_files shp_files]. eexists _, _. split_and!.
  - rewrite lookup_insert_ne by done. by rewrite lookup_insert_eq.
  - by rewrite lookup_insert_eq.
  - done.
  - done.
  - intros x. cbn [features]. apply features_of_glob.
  - intros x. cbn [features]. rewrite features_of_glob. split.
    + intros (name & s & Hlook & Hm & Hx). exists name, s. split_and!; [|done|done].
      rewrite lookup_insert_ne in Hlook; [done|]. by intros <-.
    + intros (name & s & Hlook & Hm & Hx). exists name, s. split_and!; [|done|done].
      rewrite lookup_insert_ne; [done|]. by intros <-.
  - intros other H1 H2. by rewrite !lookup_insert_ne.
Qed.

Lemma merge_shapefiles_result_witness :
  ∃ d',
    merge_shapefiles shapes_only_dir "*bomb*.shp" "total_bomb_polygons.shp" = Ok d' ∧
    glob (shp_files shapes_only_dir) "*bomb*.shp" ≠ [] ∧
    (∀ name s, (name, s) ∈ glob (shp_files shapes_only_dir) "*bomb*.shp" → crs s ≠ None) ∧
    map_files d' = map_files shapes_only_dir ∧
    (∀ other, other ≠ "total_bomb_polygons.shp" →
       shp_files d' !! other = shp_files shapes_only_dir !! other) ∧
    ∃ total,
      shp_files d' !! "total_bomb_polygons.shp" = Some total ∧
      crs total = Some "epsg:4326" ∧
      features total
      = concat (features <$> (glob (shp_files shapes_only_dir) "*bomb*.shp").*2) ∧
      length (features total)
      = sum_list ((λ s, length (features s))
                    <$> (glob (shp_files shapes_only_dir) "*bomb*.shp").*2).
Proof.
  eexists. split.
  - vm_compute. reflexivity.
  - apply (merge_shapefiles_result shapes_only_dir _ "*bomb*.shp" "total_bomb_polygons.shp").
    vm_compute. reflexivity.
Defined.

Lemma merge_outputs_shapefiles_witness :
  ∃ r d',
    merge_outputs shapes_only_dir = Ok (r, d') ∧
    ∃ outline bomb,
      shp_files d' !! "total_river_outline.shp" = Some outline ∧
      shp_files d' !! "total_bomb_polygons.shp" = Some bomb ∧
      crs outline = Some "epsg:4326" ∧ crs bomb = Some "epsg:4326" ∧
      (∀ x, x ∈ features outline
            ↔ ∃ name s, shp_files shapes_only_dir !! name = Some s ∧
                        glob_match "*river_outline*.shp" name = true ∧ x ∈ features s) ∧
      (∀ x, x ∈ features bomb
            ↔ ∃ name s, shp_files shapes_only_dir !! name = Some s ∧
                        glob_match "*bomb*.shp" name = true ∧ x ∈ features s) ∧
      (∀ other, other ≠ "total_river_outline.shp" → other ≠ "total_bomb_polygons.shp" →
                shp_files d' !! other = shp_files shapes_only_dir !! other).
Proof.
  eexists _, _. split.
  - vm_compute. reflexivity.
  - eapply (merge_outputs_shapefiles shapes_only_dir). vm_compute. reflexivity.
Defined.
